(** * NeoVintageous: the [:set] command scanner and the plugin bootstrap

    A shallow embedding of

    - [lib/ex/parser/scanner_command_set.py]: the [TokenSet] class and
      [scan_command_set], together with the fragment of Python's [re]
      engine that its pattern needs;
    - [plugin.py]: the import-time [try], [_update_ignored_packages],
      [_cleanup_views], [plugin_loaded] and [plugin_unloaded], over an
      explicit model of the host editor.

    Python [str] is [string], a [dict] with string keys is a [gmap string],
    Python's [None] is [None] of an [option]. *)

From stdpp Require Import gmap strings list sorting.
From Stdlib Require Import Ascii.
From Stdlib Require String.

Local Open Scope string_scope.

(** ** Strings *)

Module Str.

(** The line feed, the one character that [.] refuses. *)
Definition LF : ascii := "010"%char.

Fixpoint drop (n : nat) (s : string) : string :=
  match n, s with
  | O, _ => s
  | S n', String _ s' => drop n' s'
  | S _, EmptyString => EmptyString
  end.

Fixpoint take (n : nat) (s : string) : string :=
  match n, s with
  | S n', String c s' => String c (take n' s')
  | _, _ => EmptyString
  end.

(** [c in s] *)
Fixpoint contains (c : ascii) (s : string) : bool :=
  match s with
  | EmptyString => false
  | String d s' => if decide (c = d) then true else contains c s'
  end.

(** Number of leading characters of [s] equal to [c]. *)
Fixpoint run_length (c : ascii) (s : string) : nat :=
  match s with
  | String d s' => if decide (d = c) then S (run_length c s') else O
  | EmptyString => O
  end.

End Str.

(** ** The fragment of Python's [re] used by the scanner

    A backtracking matcher in continuation-passing style: the continuation
    is the rest of the pattern, and an alternative is tried only when the
    one before it has failed, in the order of Python's engine (a lazy
    quantifier tries the rest of the pattern before it takes one more
    character; [?] tries its body before it tries to go without). *)

Module Re.

(** What matches one character. *)
Inductive atom :=
| Dot                          (* [.], without DOTALL *)
| CharSet (cs : list ascii).   (* [[...]] *)

Inductive regex :=
| Atom (a : atom)
| LazyPlus (a : atom)                  (* [a+?] *)
| Seq (r1 r2 : regex)
| Opt (r : regex)                      (* [r?], greedy *)
| NonCapturing (r : regex)             (* [(?:r)] *)
| Named (name : string) (r : regex)    (* [(?P<name>r)] *)
| EndOfString.                         (* [$], without MULTILINE *)

Definition atom_matches (a : atom) (c : ascii) : bool :=
  match a with
  | Dot => bool_decide (c ≠ Str.LF)
  | CharSet cs => bool_decide (c ∈ cs)
  end.

(** [$] holds at the end of the string and just before a line feed that
    ends the string. *)
Definition at_end (s : string) : bool :=
  match s with
  | EmptyString => true
  | String c EmptyString => bool_decide (c = Str.LF)
  | _ => false
  end.

(** The text captured so far, by group name. *)
Definition captures := gmap string string.

Section Matcher.
Context {R : Type}.

(** [a+?] on [s]: one character, then the continuation is tried first
    and one more character is taken only if it fails. *)
Fixpoint lazy_plus (a : atom) (s : string) (k : string → option R)
  : option R :=
  match s with
  | EmptyString => None
  | String c s' =>
      if atom_matches a c then
        match k s' with
        | Some x => Some x
        | None => lazy_plus a s' k
        end
      else None
  end.

(** [run r s caps k]: match [r] at the head of [s], then continue with
    [k] on what is left. *)
Fixpoint run (r : regex) (s : string) (caps : captures)
    (k : string → captures → option R) : option R :=
  match r with
  | Atom a =>
      match s with
      | String c s' => if atom_matches a c then k s' caps else None
      | EmptyString => None
      end
  | LazyPlus a => lazy_plus a s (λ s', k s' caps)
  | Seq r1 r2 => run r1 s caps (λ s' caps', run r2 s' caps' k)
  | Opt r' =>
      match run r' s caps k with
      | Some x => Some x
      | None => k s caps
      end
  | NonCapturing r' => run r' s caps k
  | Named name r' =>
      run r' s caps (λ s' caps',
        k s' (<[name := Str.take (String.length s - String.length s') s]> caps'))
  | EndOfString => if at_end s then k s caps else None
  end.
End Matcher.

Fixpoint group_names (r : regex) : list string :=
  match r with
  | Atom _ | LazyPlus _ | EndOfString => []
  | Seq r1 r2 => group_names r1 ++ group_names r2
  | Opt r' | NonCapturing r' => group_names r'
  | Named name r' => name :: group_names r'
  end.

(** A match object: how many characters the match spans, and the groups. *)
Record Match := {
  span : nat;
  groups : captures
}.

(** [pattern.match(s)]: the match is anchored at the head of [s]. *)
Definition match_ (r : regex) (s : string) : option Match :=
  run r s ∅ (λ s' caps,
    Some {| span := String.length s - String.length s'; groups := caps |}).

(** [m.groupdict()]: every named group of the pattern, with [None] for a
    group that took no part in the match. *)
Definition groupdict (r : regex) (m : Match) : gmap string (option string) :=
  list_to_map ((λ name, (name, groups m !! name)) <$> group_names r).

End Re.

(** ** The scanner state *)

Module ScannerState.

(** Modelled from the spec: [lib/ex/parser/state.py] is not among the
    sources. The state is the command line being scanned, the position
    reached in it and the start of the item being scanned; [skip] moves
    past leading occurrences of a character, [ignore] forgets what was
    scanned so far, and [expect_match] matches a pattern at the position,
    moves past the match and fails when there is none. *)
Record t := {
  source : string;
  position : nat;
  start : nat
}.

(** [ScannerState(source)] *)
Definition new (source : string) : t :=
  {| source := source; position := 0; start := 0 |}.

(** The text from the position on. *)
Definition remainder (st : t) : string :=
  Str.drop (position st) (source st).

Definition skip (c : ascii) (st : t) : t :=
  {| source := source st;
     position := position st + Str.run_length c (remainder st);
     start := start st |}.

Definition ignore (st : t) : t :=
  {| source := source st; position := position st; start := position st |}.

(** The [ValueError] of a pattern that does not match, with the text it
    was tried on. *)
Inductive error := ValueError (at_ : string).

Definition expect_match (pattern : Re.regex) (st : t) : error + t * Re.Match :=
  match Re.match_ pattern (remainder st) with
  | Some m =>
      inr ({| source := source st;
              position := position st + Re.span m;
              start := start st |}, m)
  | None => inl (ValueError (remainder st))
  end.

End ScannerState.

(** ** Tokens *)

(** Modelled from the spec: [tokens_base.py] and [tokens.py] are not among
    the sources. A command token has an identifier (the command name), its
    parsed parameters, keyed by strings, and the editor command it invokes;
    the token kinds are told apart by a tag whose numeric value plays no
    part here. *)
Inductive token_type := TOKEN_EOF | TOKEN_COMMAND_SET.

Record TokenOfCommand := {
  params : gmap string (option string);
  token_type_of : token_type;
  content : string;
  target_command : string
}.

Inductive token :=
| TokenSet (t : TokenOfCommand)
| TokenEof.

(** [TokenSet.__init__] *)
Definition TokenSet_init (params : gmap string (option string)) : token :=
  TokenSet {| params := params;
              token_type_of := TOKEN_COMMAND_SET;
              content := "set";
              target_command := "ex_set" |}.

(** [self.params[key]]: a [KeyError] is [None] here, the value is [Some]. *)
Definition getitem (key : string) (t : TokenOfCommand) : option (option string) :=
  params t !! key.

(** The properties [TokenSet.value] and [TokenSet.option]. *)
Definition value (t : TokenOfCommand) : option (option string) := getitem "value" t.
Definition option_ (t : TokenOfCommand) : option (option string) := getitem "option" t.

(** [d.update(other)]: the keys of [other] win. *)
Definition dict_update {V} (d other : gmap string V) : gmap string V := other ∪ d.

(** ** [scan_command_set] *)

(** The pattern [(?P<option>.+?)(?:[:=](?P<value>.+?))?$]. *)
Definition set_pattern : Re.regex :=
  Re.Seq (Re.Named "option" (Re.LazyPlus Re.Dot))
    (Re.Seq
       (Re.Opt (Re.NonCapturing
          (Re.Seq (Re.Atom (Re.CharSet [":"%char; "="%char]))
                  (Re.Named "value" (Re.LazyPlus Re.Dot)))))
       Re.EndOfString).

(** A scanner returns the scanner to go on with, if any, and the tokens it
    has made; the scanner is named by its function. *)
Inductive scanner := Scanner (name : string).

Inductive scan_result :=
| Raised (e : ScannerState.error)
| Returned (state : ScannerState.t) (next : option scanner) (tokens : list token).

Definition scan_command_set (state : ScannerState.t) : scan_result :=
  let params : gmap string (option string) :=
    {[ "option" := None; "value" := None ]} in
  let state := ScannerState.skip " " state in
  let state := ScannerState.ignore state in
  match ScannerState.expect_match set_pattern state with
  | inl e => Raised e
  | inr (state, m) =>
      let params := dict_update params (Re.groupdict set_pattern m) in
      Returned state None [TokenSet_init params; TokenEof]
  end.

(** The characters that part the option from its value. *)
Definition is_separator (c : ascii) : Prop := c = ":"%char ∨ c = "="%char.

(** A command line is one line: it holds no line feed. *)
Definition single_line (s : string) : Prop := Str.contains Str.LF s = false.

(** What [scan_command_set] matches its pattern on: the text left once the
    leading spaces are skipped. *)
Definition after_spaces (state : ScannerState.t) : string :=
  ScannerState.remainder (ScannerState.skip " " state).

(** The tokens of a scan that returned, [None] for one that raised. *)
Definition returned_tokens (r : scan_result) : option (list token) :=
  match r with
  | Returned _ _ tokens => Some tokens
  | Raised _ => None
  end.

(** ** The host editor, as [plugin.py] sees it *)

Module Host.

(** An exception: an instance of [Exception], which is what every
    [except Exception] of [plugin.py] catches. [ImportError] stands for
    the class and its subclasses, [Error] for every class that is neither
    of the two others. The exits of the interpreter ([SystemExit],
    [KeyboardInterrupt]) are not exceptions in this sense and are not
    modelled. *)
Inductive exn :=
| ImportError (msg : string)
| NameError (name : string)
| Error (cls msg : string).

(** [isinstance(e, ImportError)], where [e] may be [None]. *)
Definition isinstance_ImportError (e : option exn) : bool :=
  match e with
  | Some (ImportError _) => true
  | _ => false
  end.

(** Truth value of [None] or an exception object. *)
Definition truthy (e : option exn) : bool :=
  match e with
  | Some _ => true
  | None => false
  end.

(** The value of a view setting. *)
Inductive value :=
| VBool (b : bool)
| VStr (s : string).

(** A view, by the index of its window and its index in the window. *)
Definition view_id : Type := nat * nat.

(** What the plugin prints, saves and shows. *)
Inductive event :=
| Printed (text : string)                       (* [print] *)
| Traceback (e : exn)                           (* [traceback.print_exc()] *)
| PreferencesSet (key : string) (v : list string)  (* [settings.set] on the preferences *)
| Saved (name : string)                         (* [sublime.save_settings] *)
| MessageDialog (message : string).             (* [sublime.message_dialog] *)

(** The editor.
    - [preferences]: the settings object of [Preferences.sublime-settings]
      (the values read here are lists of package names);
    - [windows]: the windows, each with the settings of each of its views;
    - [active]: [sublime.active_window().active_view()], [None] when the
      active sheet is not a view;
    - [package_control]: [None] when Package Control cannot be imported,
      else what [events.install] and [events.post_upgrade] answer;
    - [output]: the events so far, oldest first;
    - [faults]: what the coming calls into the host and into other
      modules do, one entry per call: [Some e] raises [e], [None] goes
      through; calls beyond the end of the list go through. *)
Record world := World {
  preferences : gmap string (list string);
  windows : list (list (gmap string value));
  active : option view_id;
  package_control : option (bool * bool);
  output : list event;
  faults : list (option exn)
}.

Definition set_preferences (p : gmap string (list string)) (w : world) : world :=
  World p (windows w) (active w) (package_control w) (output w) (faults w).
Definition set_windows (ws : list (list (gmap string value))) (w : world) : world :=
  World (preferences w) ws (active w) (package_control w) (output w) (faults w).
Definition set_faults (fs : list (option exn)) (w : world) : world :=
  World (preferences w) (windows w) (active w) (package_control w) (output w) fs.
Definition emit (ev : event) (w : world) : world :=
  World (preferences w) (windows w) (active w) (package_control w)
        (output w ++ [ev]) (faults w).

(** *** Computations that change the editor and may raise *)

Inductive outcome (A : Type) :=
| Ok (a : A) (w : world)
| Raise (e : exn) (w : world).
Arguments Ok {A} a w.
Arguments Raise {A} e w.

Definition M (A : Type) : Type := world → outcome A.

#[global] Instance M_ret : MRet M := λ A a w, Ok a w.
#[global] Instance M_bind : MBind M := λ A B f m w,
  match m w with
  | Ok a w' => f a w'
  | Raise e w' => Raise e w'
  end.

Definition raise {A} (e : exn) : M A := λ w, Raise e w.

(** The editor a computation leaves, however it ends. *)
Definition final {A} (o : outcome A) : world :=
  match o with
  | Ok _ w => w
  | Raise _ w => w
  end.

(** The messages of the dialogs shown so far, oldest first, and those
    shown between an earlier state [w] and a later one [w']. *)
Definition dialogs (w : world) : list string :=
  omap (λ ev, match ev with MessageDialog m => Some m | _ => None end) (output w).
Definition dialogs_since (w w' : world) : list string :=
  drop (length (dialogs w)) (dialogs w').

(** A call that can raise: it raises when the fault list says so, and
    does [f] otherwise. *)
Definition call {A} (f : world → outcome A) : M A := λ w,
  match faults w with
  | Some e :: rest => Raise e (set_faults rest w)
  | None :: rest => f (set_faults rest w)
  | [] => f w
  end.

(** A statement that cannot raise: [print], [traceback.print_exc()] and
    [sublime.message_dialog] only add to the output. *)
Definition say (ev : event) : M unit := λ w, Ok tt (emit ev w).

(** [for x in xs: body] *)
Fixpoint for_ {A} (xs : list A) (body : A → M unit) : M unit :=
  match xs with
  | [] => mret tt
  | x :: xs' => body x ;; for_ xs' body
  end.

(** A [try] block over the local variables [L] of the function it is in:
    the statements run in turn, each on the locals the one before left;
    when one raises, the handler gets the exception and the locals as
    they were when that statement began. *)
Fixpoint try_ {L} (body : list (L → M L)) (except : exn → L → M L)
    (l : L) : M L := λ w,
  match body with
  | [] => Ok l w
  | stmt :: body' =>
      match stmt l w with
      | Ok l' w' => try_ body' except l' w'
      | Raise e w' => except e l w'
      end
  end.

(** *** The host API *)

(** [sublime.load_settings(name)] hands out the settings object of the
    preferences, [settings.get(key, default)] reads it. *)
Definition load_settings (name : string) : M unit :=
  call (λ w, Ok tt w).
Definition preferences_get (key : string) (default : list string)
  : M (list string) :=
  call (λ w, Ok (from_option id default (preferences w !! key)) w).
Definition preferences_set (key : string) (v : list string) : M unit :=
  call (λ w, Ok tt (emit (PreferencesSet key v)
                      (set_preferences (<[key := v]> (preferences w)) w))).
Definition save_settings (name : string) : M unit :=
  call (λ w, Ok tt (emit (Saved name) w)).

(** [sublime.windows()], [window.views()], [view.settings()] *)
Definition sublime_windows : M (list nat) :=
  call (λ w, Ok (seq 0 (length (windows w))) w).
Definition window_views (window : nat) : M (list view_id) :=
  call (λ w, Ok ((λ j, (window, j)) <$>
                   seq 0 (length (default [] (windows w !! window)))) w).
Definition view_settings (view : view_id) : M view_id :=
  call (λ w, Ok view w).

Definition on_view (view : view_id)
    (f : gmap string value → gmap string value) (w : world) : world :=
  set_windows (alter (alter f view.2) view.1 (windows w)) w.

(** [settings.set(key, v)] and [settings.erase(key)] on a view's settings *)
Definition settings_set (settings : view_id) (key : string) (v : value) : M unit :=
  call (λ w, Ok tt (on_view settings (<[key := v]>) w)).
Definition settings_erase (settings : view_id) (key : string) : M unit :=
  call (λ w, Ok tt (on_view settings (delete key) w)).

(** [sublime.active_window()] and [window.active_view()] *)
Definition active_window : M unit := call (λ w, Ok tt w).
Definition active_view : M (option view_id) := call (λ w, Ok (active w) w).

(** [from package_control import events], [events.install(name)] and
    [events.post_upgrade(name)] *)
Definition import_package_control : M unit :=
  call (λ w, match package_control w with
             | Some _ => Ok tt w
             | None => Raise (ImportError "package_control") w
             end).
Definition events_install (name : string) : M bool :=
  call (λ w, Ok (from_option fst false (package_control w)) w).
Definition events_post_upgrade (name : string) : M bool :=
  call (λ w, Ok (from_option snd false (package_control w)) w).

(** An import statement of the plugin's own modules. *)
Definition import_ (module : string) : M unit := call (λ w, Ok tt w).

End Host.

(** ** [plugin.py] *)

Module Plugin.
Import Host.

(** [sorted] on a list of [str]: ascending, by code points. *)
Definition sorted (l : list string) : list string := merge_sort String.le l.

(** [x in l] *)
Definition in_ (x : string) (l : list string) : bool := bool_decide (x ∈ l).

(** Truth value of a list. *)
Definition nonempty {A} (l : list A) : bool :=
  match l with
  | [] => false
  | _ :: _ => true
  end.

(** [str(l)] for a list of names that need no escaping. *)
Definition repr_names (l : list string) : string :=
  "[" +:+ String.concat ", " ((λ x, "'" +:+ x +:+ "'") <$> l) +:+ "]".

(** [needle in text] on [str] *)
Fixpoint substring_of (needle text : string) : bool :=
  String.prefix needle text ||
  match text with
  | EmptyString => false
  | String _ text' => substring_of needle text'
  end.

(** *** The module body *)

(** The names the module body binds and [plugin_loaded] reads:
    [_EXCEPTION], and whether [init_state] got bound. *)
Record globals := Globals {
  _EXCEPTION : option exn;
  init_state_bound : bool
}.

(** The [try] of the module body, lines 14 to 48. *)
Definition module_body : M globals :=
  try_
    [ (λ g, mret (Globals None (init_state_bound g)));
      (λ g, import_ ".lib.state";; mret (Globals (_EXCEPTION g) true));
      (λ g, import_ ".lib.commands";; mret g);
      (λ g, import_ ".lib.cmds.ex_actions";; mret g);
      (λ g, import_ ".lib.cmds.vi_actions";; mret g);
      (λ g, import_ ".lib.cmds.vi_motions";; mret g);
      (λ g, import_ ".lib.extras.surround";; mret g);
      (λ g, import_ ".lib.extras.unimpaired";; mret g);
      (λ g, import_ ".lib.extras.abolish";; mret g);
      (λ g, import_ ".lib.events";; mret g) ]
    (λ e g, say (Traceback e);; mret (Globals (Some e) (init_state_bound g)))
    (Globals None false).

(** *** [_update_ignored_packages] *)

Definition _update_ignored_packages : M unit :=
  load_settings "Preferences.sublime-settings";;
  ignored_packages ← preferences_get "ignored_packages" [];
  let conflict_packages :=
    filter (λ x, in_ x ignored_packages = false) ["Six"; "Vintage"; "Vintageous"] in
  if nonempty conflict_packages then
    say (Printed ("NeoVintageous: update ignored packages with conflicts "
                  +:+ repr_names conflict_packages));;
    let ignored_packages := sorted (ignored_packages ++ conflict_packages) in
    preferences_set "ignored_packages" ignored_packages;;
    save_settings "Preferences.sublime-settings"
  else mret tt.

(** *** [_cleanup_views] *)

Definition _cleanup_views : M unit :=
  ws ← sublime_windows;
  for_ ws (λ window,
    vs ← window_views window;
    for_ vs (λ view,
      settings ← view_settings view;
      settings_set settings "command_mode" (VBool false);;
      settings_set settings "inverse_caret_state" (VBool false);;
      settings_erase settings "vintage")).

(** *** [plugin_loaded] and [plugin_unloaded] *)

(** The local variables of [plugin_loaded] that outlive a [try]. *)
Record locals := Locals {
  pc_event : option string;
  _exception : option exn
}.

Definition message_for (import_error post_upgrade : bool) : string :=
  if import_error then
    if post_upgrade then
      "Failed to load some modules trying to upgrade NeoVintageous. "
      +:+ "Please restart Sublime Text to finish the upgrade."
    else
      "Failed to load some NeoVintageous modules. "
      +:+ "Please restart Sublime Text."
  else
    if post_upgrade then
      "An error occurred trying to upgrade NeoVintageous. "
      +:+ "Please restart Sublime Text to finish the upgrade."
    else
      "An error occurred trying to load NeoVintageous. "
      +:+ "Please restart Sublime Text.".

Section Bootstrap.

(** [lib.state.init_state(view, new_session=True)], which is not among
    the sources: it may change the settings of the views, and it may
    raise. *)
Variable init_state :
  view_id → list (list (gmap string value)) →
  list (list (gmap string value)) * option exn.

(** The call [init_state(view, new_session=True)] from [plugin_loaded]:
    a [NameError] when the module body did not get to bind the name. *)
Definition call_init_state (g : globals) (view : view_id) : M unit :=
  if init_state_bound g then
    call (λ w,
      let '(ws, r) := init_state view (windows w) in
      match r with
      | None => Ok tt (set_windows ws w)
      | Some e => Raise e (set_windows ws w)
      end)
  else raise (NameError "init_state").

(** [plugin_loaded], lines 86 to 122: the three [try] statements, and
    the local variables they leave. *)
Definition plugin_loaded_init (g : globals) : M locals :=
  l ← try_
    [ (λ l, mret (Locals None (_exception l)));
      (λ l, import_package_control;; mret l);
      (λ l, b ← events_install "NeoVintageous";
            mret (if b : bool then Locals (Some "install") (_exception l) else l));
      (λ l, b ← events_post_upgrade "NeoVintageous";
            mret (if b : bool then Locals (Some "post_upgrade") (_exception l) else l)) ]
    (λ e l, match e with
            | ImportError _ => mret l
            | _ => say (Traceback e);; mret l
            end)
    (Locals None None);
  l ← try_
    [ (λ l, _update_ignored_packages;; mret l) ]
    (λ e l, say (Traceback e);; mret l)
    l;
  try_
    [ (λ l, mret (Locals (pc_event l) None));
      (λ l, active_window;;
            view ← active_view;
            match view with
            | Some v => call_init_state g v;; mret l
            | None => mret l
            end) ]
    (λ e l, say (Traceback e);; mret (Locals (pc_event l) (Some e)))
    l.

(** [plugin_loaded], lines 124 to 148: the error branch. *)
Definition plugin_loaded_report (g : globals) (l : locals) : M unit :=
  if truthy (_EXCEPTION g) || truthy (_exception l) then
    try_ [ (λ u, _cleanup_views;; mret u) ]
         (λ e u, say (Traceback e);; mret u)
         tt;;
    let message :=
      message_for
        (isinstance_ImportError (_EXCEPTION g) || isinstance_ImportError (_exception l))
        (bool_decide (pc_event l = Some "post_upgrade")) in
    say (Printed ("NeoVintageous: " +:+ message));;
    say (MessageDialog message)
  else mret tt.

Definition plugin_loaded (g : globals) : M unit :=
  l ← plugin_loaded_init g;
  plugin_loaded_report g l.

Definition plugin_unloaded : M unit :=
  try_ [ (λ u, _cleanup_views;; mret u) ]
       (λ e u, say (Traceback e);; mret u)
       tt.

(** The life of the plugin up to the end of [plugin_loaded]: the module
    body runs, then the host calls the hook. *)
Definition load : M unit :=
  g ← module_body;
  plugin_loaded g.

End Bootstrap.

End Plugin.

(** ** Editors to try the bootstrap on *)

Module Sample.
Import Host Plugin.

(** An [init_state] that leaves the views as they are, and one that
    raises. *)
Definition init_state_ok (view : view_id) (ws : list (list (gmap string value)))
  : list (list (gmap string value)) * option exn := (ws, None).
Definition init_state_raises (view : view_id) (ws : list (list (gmap string value)))
  : list (list (gmap string value)) * option exn :=
  (ws, Some (Error "RuntimeError" "init_state")).

(** One window with one view, in normal mode with a block caret. *)
Definition view_in_normal_mode : gmap string value :=
  {[ "command_mode" := VBool true;
     "inverse_caret_state" := VBool true;
     "vintage" := VStr "state";
     "tab_size" := VStr "4" ]}.

Definition editor (ignored_packages : list string) : world :=
  World {[ "ignored_packages" := ignored_packages ]}
        [[view_in_normal_mode]] (Some (0, 0)) None [] [].

(** The module body failed on its first import. *)
Definition import_failed : globals :=
  Globals (Some (ImportError "No module named lib.state")) false.

(** The module body went through. *)
Definition imported : globals := Globals None true.

End Sample.

(** * Properties *)

(** ** Strings *)

Module StrFacts.
Import Str.

Lemma app_nil_l (s : string) : "" +:+ s = s.
Proof. reflexivity. Qed.

Lemma app_cons (c : ascii) (s t : string) :
  String c s +:+ t = String c (s +:+ t).
Proof. reflexivity. Qed.

Lemma app_nil_r (s : string) : s +:+ "" = s.
Proof. induction s as [|c s IH]; [done|]. by rewrite app_cons, IH. Qed.

Lemma length_app (s t : string) :
  String.length (s +:+ t) = String.length s + String.length t.
Proof. induction s as [|c s IH]; [done|]. rewrite app_cons. simpl. by rewrite IH. Qed.

Lemma take_app (s t : string) : take (String.length s) (s +:+ t) = s.
Proof. induction s as [|c s IH]; [by destruct t|]. rewrite app_cons. simpl. by rewrite IH. Qed.

(** The text between the start of a match and what is left after it. *)
Lemma take_consumed (s t : string) :
  take (String.length (s +:+ t) - String.length t) (s +:+ t) = s.
Proof.
  rewrite length_app.
  replace (String.length s + String.length t - String.length t)
    with (String.length s) by lia.
  apply take_app.
Qed.

Lemma take_length (s : string) : take (String.length s) s = s.
Proof. induction s as [|c s IH]; [done|]. simpl. by rewrite IH. Qed.

Lemma contains_app (c : ascii) (s t : string) :
  contains c (s +:+ t) = contains c s || contains c t.
Proof.
  induction s as [|d s IH]; [done|].
  rewrite app_cons. simpl. by destruct (decide (c = d)).
Qed.

Lemma contains_drop (c : ascii) (n : nat) (s : string) :
  contains c s = false → contains c (drop n s) = false.
Proof.
  revert s. induction n as [|n IH]; intros [|d s]; simpl; try done.
  destruct (decide (c = d)); [done|]. apply IH.
Qed.

Lemma drop_add (n m : nat) (s : string) : drop (n + m) s = drop m (drop n s).
Proof.
  revert s. induction n as [|n IH]; intros s; [done|].
  destruct s as [|c s]; simpl; [by destruct m|]. apply IH.
Qed.

Lemma drop_run_length (c : ascii) (s : string) :
  run_length c (drop (run_length c s) s) = 0.
Proof.
  induction s as [|d s IH]; [done|].
  simpl. destruct (decide (d = c)) as [->|Hne]; simpl; [done|].
  by rewrite decide_False.
Qed.

End StrFacts.

(** ** The matcher *)

Module ReFacts.
Import Str StrFacts Re.

Section LazyPlus.
Context {R : Type}.
Implicit Types (k : string → option R).

(** A match of [a+?] takes a prefix that is not empty, and the
    continuation accepts what is left. *)
Lemma lazy_plus_Some a s k x :
  lazy_plus a s k = Some x →
  ∃ pre post, s = pre +:+ post ∧ pre ≠ "" ∧ k post = Some x.
Proof.
  induction s as [|c s IH]; simpl; [done|].
  destruct (atom_matches a c); [|done].
  destruct (k s) as [y|] eqn:Hk.
  - intros [= ->]. exists (String c ""), s. by rewrite app_cons, app_nil_l.
  - intros (pre & post & -> & Hpre & Hpost)%IH.
    exists (String c pre), post. by rewrite app_cons.
Qed.

(** [a+?] takes the whole of a prefix whose characters all match, when
    the continuation refuses every earlier stop. *)
Lemma lazy_plus_first a pre post k :
  pre ≠ "" →
  (∀ c, contains c pre = true → atom_matches a c = true) →
  (∀ p1 p2, pre = p1 +:+ p2 → p1 ≠ "" → p2 ≠ "" → k (p2 +:+ post) = None) →
  lazy_plus a (pre +:+ post) k =
    match k post with
    | Some x => Some x
    | None => lazy_plus a post k
    end.
Proof.
  induction pre as [|c pre IH]; [done|]. intros _ Hall Hstop.
  rewrite app_cons. simpl.
  rewrite Hall by (simpl; by rewrite decide_True).
  destruct pre as [|d pre]; [done|].
  rewrite (Hstop (String c "") (String d pre)) by done.
  apply IH; [done| |].
  - intros c' Hc'. apply Hall. simpl in *. by destruct (decide (c' = c)).
  - intros p1 p2 Hp ??. apply (Hstop (String c p1) p2); [|done..].
    by rewrite app_cons, Hp.
Qed.

End LazyPlus.

Lemma at_end_single_line s :
  s ≠ "" → contains LF s = false → at_end s = false.
Proof.
  destruct s as [|c [|d s]]; simpl; [done| |done].
  intros _. destruct (decide (LF = c)) as [<-|Hne]; [done|].
  intros _. by rewrite bool_decide_eq_false.
Qed.

Lemma dot_matches_single_line s c :
  contains LF s = false → contains c s = true → atom_matches Dot c = true.
Proof.
  intros Hs Hc. simpl. rewrite bool_decide_eq_true. intros ->. congruence.
Qed.

End ReFacts.

(** ** The pattern of [:set] *)

Module SetPattern.
Import Str StrFacts Re ReFacts.

(** What follows the [option] group: [(?:[:=](?P<value>.+?))?$]. *)
Local Abbreviation tail_pattern :=
  (Seq (Opt (NonCapturing
          (Seq (Atom (CharSet [":"%char; "="%char]))
               (Named "value" (LazyPlus Dot)))))
       EndOfString).

Lemma separator_in_set c :
  is_separator c ↔ atom_matches (CharSet [":"%char; "="%char]) c = true.
Proof.
  unfold is_separator. simpl.
  rewrite bool_decide_eq_true, !elem_of_cons, elem_of_nil. tauto.
Qed.

Lemma lazy_plus_to_end {R} a pre (k : string → option R) :
  pre ≠ "" →
  (∀ c, contains c pre = true → atom_matches a c = true) →
  (∀ p1 p2, pre = p1 +:+ p2 → p1 ≠ "" → p2 ≠ "" → k p2 = None) →
  lazy_plus a pre k = k "".
Proof.
  intros Hne Hall Hstop.
  rewrite <-(app_nil_r pre) at 1.
  rewrite lazy_plus_first; [by destruct (k "")|done..|].
  intros p1 p2 ???. rewrite app_nil_r. eauto.
Qed.

(** With no separator at its head and more than the end of the line
    ahead, the rest of the pattern fails. *)
Lemma tail_fails_inside {R} c s caps (k : string → captures → option R) :
  ¬ is_separator c → at_end (String c s) = false →
  run tail_pattern (String c s) caps k = None.
Proof.
  intros Hc Hend. cbn [run].
  destruct (atom_matches _ c) eqn:Hm; [by apply separator_in_set in Hm|].
  by rewrite Hend.
Qed.

(** A separator with nothing behind it starts no value, and is not the
    end of the line. *)
Lemma tail_fails_on_last_separator {R} c caps (k : string → captures → option R) :
  c ≠ LF → run tail_pattern (String c "") caps k = None.
Proof.
  intros Hc. cbn [run lazy_plus].
  destruct (atom_matches _ c); cbn; by rewrite bool_decide_eq_false_2.
Qed.

(** At the end of the text the rest of the pattern matches, with no
    value. *)
Lemma tail_at_end {R} caps (k : string → captures → option R) :
  run tail_pattern "" caps k = k "" caps.
Proof. done. Qed.

(** A separator and a value that runs to the end of the line. *)
Lemma tail_takes_value {R} sep val caps (k : string → captures → option R) :
  is_separator sep → val ≠ "" → contains LF val = false →
  run tail_pattern (String sep val) caps k = k "" (<["value" := val]> caps).
Proof.
  intros Hsep Hne Hline. cbn [run].
  apply separator_in_set in Hsep as ->.
  rewrite lazy_plus_to_end; [|done|by eauto using dot_matches_single_line|].
  - cbn [at_end String.length]. rewrite Nat.sub_0_r, take_length.
    destruct (k "" _); [done|].
    destruct val as [|c val]; [done|]. cbn [at_end].
    by destruct val.
  - intros p1 p2 -> _ Hp2.
    rewrite contains_app, orb_false_iff in Hline. destruct Hline as [_ Hline].
    by rewrite at_end_single_line.
Qed.

Lemma match_unfold s :
  match_ set_pattern s =
    lazy_plus Dot s (λ s',
      run tail_pattern s'
        (<["option" := take (String.length s - String.length s') s]> ∅)
        (λ s'' caps,
           Some {| span := String.length s - String.length s'';
                   groups := caps |})).
Proof. reflexivity. Qed.

Lemma not_separator_head c s :
  contains ":"%char (String c s) = false →
  contains "="%char (String c s) = false →
  ¬ is_separator c.
Proof.
  simpl. intros H1 H2 [->| ->]; by rewrite decide_True in *.
Qed.

(** [opt SEP val] on one line, with no separator in [opt]: the option is
    [opt] and the value is [val]. *)
Lemma match_option_value opt sep val :
  opt ≠ "" → contains ":"%char opt = false → contains "="%char opt = false →
  is_separator sep → val ≠ "" →
  contains LF opt = false → contains LF val = false →
  match_ set_pattern (opt +:+ String sep val) =
    Some {| span := String.length (opt +:+ String sep val);
            groups := <["value" := val]> (<["option" := opt]> ∅) |}.
Proof.
  intros Hopt Hc He Hsep Hval Hlo Hlv.
  rewrite match_unfold, lazy_plus_first; [|done|by eauto using dot_matches_single_line|].
  - rewrite take_consumed, tail_takes_value by done.
    cbn [String.length]. by rewrite Nat.sub_0_r.
  - intros p1 p2 -> Hp1 Hp2.
    rewrite contains_app, orb_false_iff in Hc, He.
    destruct Hc as [_ Hc], He as [_ He].
    destruct p2 as [|c p2]; [done|]. rewrite app_cons.
    apply tail_fails_inside; [by eapply not_separator_head|].
    by destruct p2.
Qed.

(** One line in which a separator past the first character can only be
    the last character: the option is the whole text, and there is no
    value. *)
Lemma match_option_only text :
  text ≠ "" → contains LF text = false →
  (∀ p1 c p2, text = p1 +:+ String c p2 → p1 ≠ "" → is_separator c → p2 = "") →
  match_ set_pattern text =
    Some {| span := String.length text; groups := <["option" := text]> ∅ |}.
Proof.
  intros Hne Hline Hsep.
  rewrite match_unfold, lazy_plus_to_end;
    [|done|by eauto using dot_matches_single_line|].
  - rewrite tail_at_end. cbn [String.length]. by rewrite Nat.sub_0_r, take_length.
  - intros p1 [|c p2] Htext Hp1 Hp2; [done|].
    assert (contains LF (String c p2) = false) as Hl2.
    { rewrite Htext, contains_app, orb_false_iff in Hline. by destruct Hline. }
    destruct (decide (c = ":"%char ∨ c = "="%char)) as [Hc|Hc].
    + rewrite (Hsep p1 c p2 Htext Hp1 Hc) in *.
      apply tail_fails_on_last_separator. intros ->.
      by simpl in Hl2.
    + apply tail_fails_inside; [done|]. by apply at_end_single_line.
Qed.

(** Every match has an option that is not empty, and a value only when
    a separator and a value that is not empty follow the option. *)
Lemma match_inv s m :
  match_ set_pattern s = Some m →
  ∃ opt rest, s = opt +:+ rest ∧ opt ≠ "" ∧
    groups m !! "option" = Some opt ∧
    (groups m !! "value" = None ∨
     ∃ sep val rest', rest = String sep (val +:+ rest') ∧
       is_separator sep ∧ val ≠ "" ∧ groups m !! "value" = Some val).
Proof.
  rewrite match_unfold.
  intros (opt & rest & -> & Hopt & Hk)%lazy_plus_Some.
  exists opt, rest. split_and!; [done..| |].
  - rewrite take_consumed in Hk. cbn [run] in Hk.
    destruct rest as [|c rest].
    + cbn in Hk. injection Hk as <-. by simplify_map_eq.
    + destruct (atom_matches (CharSet _) c);
        [destruct (lazy_plus _ _ _) eqn:Hv|].
      * injection Hk as <-.
        apply lazy_plus_Some in Hv as (val & rest' & -> & Hval & Hv).
        destruct (at_end rest'); [|done]. injection Hv as <-.
        by simplify_map_eq.
      * destruct (at_end _); [|done]. injection Hk as <-. by simplify_map_eq.
      * destruct (at_end _); [|done]. injection Hk as <-. by simplify_map_eq.
  - rewrite take_consumed in Hk. cbn [run] in Hk.
    destruct rest as [|c rest].
    + left. cbn in Hk. injection Hk as <-. by simplify_map_eq.
    + destruct (atom_matches (CharSet _) c) eqn:Hc;
        [destruct (lazy_plus _ _ _) eqn:Hv|].
      * injection Hk as <-. right.
        apply lazy_plus_Some in Hv as (val & rest' & -> & Hval & Hv).
        destruct (at_end rest'); [|done]. injection Hv as <-.
        exists c, val, rest'. split_and!; [done|by apply separator_in_set|done|].
        rewrite take_consumed. by simplify_map_eq.
      * left. destruct (at_end _); [|done]. injection Hk as <-. by simplify_map_eq.
      * left. destruct (at_end _); [|done]. injection Hk as <-. by simplify_map_eq.
Qed.

End SetPattern.

(** ** [scan_command_set] *)

Module ScanSet.
Import Str StrFacts SetPattern.

Lemma after_spaces_single_line st :
  single_line (ScannerState.source st) → contains LF (after_spaces st) = false.
Proof. apply contains_drop. Qed.

(** The leading spaces are all skipped. *)
Lemma after_spaces_no_space st s : after_spaces st ≠ String " " s.
Proof.
  unfold after_spaces, ScannerState.remainder, ScannerState.skip. simpl.
  rewrite drop_add. intros Heq.
  pose proof (drop_run_length " "%char (drop (ScannerState.position st)
                                         (ScannerState.source st))) as Hrun.
  unfold ScannerState.remainder in Heq. by rewrite Heq in Hrun.
Qed.

(** The parameters of the token, from the groups of the match. *)
Lemma params_lookup (m : Re.Match) :
  let params :=
    dict_update {[ "option" := None; "value" := None ]}
                (Re.groupdict set_pattern m) in
  params !! "option" = Some (Re.groups m !! "option") ∧
  params !! "value" = Some (Re.groups m !! "value").
Proof. split; by vm_compute. Qed.

Lemma scan_matched st m :
  Re.match_ set_pattern (after_spaces st) = Some m →
  ∃ st',
    scan_command_set st =
      Returned st' None
        [TokenSet_init (dict_update {[ "option" := None; "value" := None ]}
                                    (Re.groupdict set_pattern m));
         TokenEof].
Proof.
  intros Hm. unfold scan_command_set, ScannerState.expect_match.
  change (ScannerState.remainder (ScannerState.ignore (ScannerState.skip " " st)))
    with (after_spaces st).
  rewrite Hm. eauto.
Qed.

Lemma scan_not_matched st :
  Re.match_ set_pattern (after_spaces st) = None →
  scan_command_set st = Raised (ScannerState.ValueError (after_spaces st)).
Proof.
  intros Hm. unfold scan_command_set, ScannerState.expect_match.
  change (ScannerState.remainder (ScannerState.ignore (ScannerState.skip " " st)))
    with (after_spaces st).
  by rewrite Hm.
Qed.

Lemma scan_returned_inv st st' next tokens :
  scan_command_set st = Returned st' next tokens →
  ∃ m, Re.match_ set_pattern (after_spaces st) = Some m ∧
    next = None ∧
    tokens = [TokenSet_init (dict_update {[ "option" := None; "value" := None ]}
                                         (Re.groupdict set_pattern m));
              TokenEof].
Proof.
  unfold scan_command_set, ScannerState.expect_match.
  change (ScannerState.remainder (ScannerState.ignore (ScannerState.skip " " st)))
    with (after_spaces st).
  destruct (Re.match_ set_pattern (after_spaces st)) as [m|]; [|done].
  intros [= <- <- <-]. eauto.
Qed.

End ScanSet.

Section ScanSetClaims.
Import Str StrFacts SetPattern ScanSet.

(** C1, as stated, fails when the argument holds a line feed: [.] takes
    no line feed and [$] also holds before a last one. For [a=b] followed
    by a line feed, the claim's [val] is [b] with the line feed, and the
    value of the token is [b]; for [a], a line feed and [b], which holds no
    separator, the scan raises instead of giving the whole argument as the
    option. *)
Lemma scan_command_set_option_and_value_counterexample :
  (after_spaces (ScannerState.new ("a=b" +:+ String LF ""))
     = "a" +:+ String "="%char ("b" +:+ String LF "") ∧
   ∃ st' t,
     scan_command_set (ScannerState.new ("a=b" +:+ String LF ""))
       = Returned st' None [TokenSet t; TokenEof] ∧
     option_ t = Some (Some "a") ∧
     value t = Some (Some "b") ∧
     value t ≠ Some (Some ("b" +:+ String LF ""))) ∧
  (after_spaces (ScannerState.new ("a" +:+ String LF "b"))
     = "a" +:+ String LF "b" ∧
   contains ":"%char ("a" +:+ String LF "b") = false ∧
   contains "="%char ("a" +:+ String LF "b") = false ∧
   scan_command_set (ScannerState.new ("a" +:+ String LF "b"))
     = Raised (ScannerState.ValueError ("a" +:+ String LF "b"))).
Proof.
  split.
  - split; [reflexivity|].
    eexists _, _. split; [reflexivity|]. by vm_compute.
  - by vm_compute.
Qed.

(** C1, amended. When the argument of [:set], past its leading spaces, is
    one line (it holds no line feed) and reads [opt SEP val] with [SEP] one
    of [=] and [:], [opt] not empty and free of [=] and [:], and [val] not
    empty, [scan_command_set] makes a [TokenSet] whose [option] is [opt]
    and whose [value] is [val]: the text is split at the first separator.
    When the argument is one line, is not empty and holds no [=] and no
    [:], the [option] is the whole argument and the [value] is [None]. *)
Theorem scan_command_set_option_and_value :
  (∀ st opt sep val,
     single_line (after_spaces st) →
     after_spaces st = opt +:+ String sep val →
     is_separator sep →
     opt ≠ "" → contains ":"%char opt = false → contains "="%char opt = false →
     val ≠ "" →
     ∃ st' t,
       scan_command_set st = Returned st' None [TokenSet t; TokenEof] ∧
       option_ t = Some (Some opt) ∧ value t = Some (Some val)) ∧
  (∀ st arg,
     single_line (after_spaces st) →
     after_spaces st = arg →
     arg ≠ "" → contains ":"%char arg = false → contains "="%char arg = false →
     ∃ st' t,
       scan_command_set st = Returned st' None [TokenSet t; TokenEof] ∧
       option_ t = Some (Some arg) ∧ value t = Some None).
Proof.
  split.
  - intros st opt sep val Hline Harg Hsep Hopt Hc He Hval.
    unfold single_line in Hline.
    rewrite Harg, contains_app, orb_false_iff in Hline.
    destruct Hline as [Hlo Hlv].
    assert (contains LF val = false) as Hlv'.
    { simpl in Hlv. by destruct (decide (LF = sep)). }
    destruct (scan_matched st _ (eq_trans (f_equal _ Harg)
      (match_option_value opt sep val Hopt Hc He Hsep Hval Hlo Hlv')))
      as [st' ->].
    eexists st', _. split; [done|].
    unfold option_, value, getitem. cbn [params].
    destruct (params_lookup {| Re.span := String.length (opt +:+ String sep val);
        Re.groups := <["value" := val]> (<["option" := opt]> ∅) |}) as [-> ->].
    by simplify_map_eq.
  - intros st arg Hline Harg Hne Hc He.
    unfold single_line in Hline. rewrite Harg in Hline.
    assert (Re.match_ set_pattern (after_spaces st) =
            Some {| Re.span := String.length arg;
                    Re.groups := <["option" := arg]> ∅ |}) as Hm.
    { rewrite Harg. apply match_option_only; [done..|].
      intros p1 c p2 -> _ [-> | ->]; exfalso.
      - rewrite contains_app in Hc. simpl in Hc. by rewrite orb_true_r in Hc.
      - rewrite contains_app in He. simpl in He. by rewrite orb_true_r in He. }
    destruct (scan_matched st _ Hm) as [st' ->].
    eexists st', _. split; [done|].
    unfold option_, value, getitem. cbn [params].
    destruct (params_lookup {| Re.span := String.length arg;
        Re.groups := <["option" := arg]> ∅ |}) as [-> ->].
    by simplify_map_eq.
Qed.

(** C1, amended, at [:set  a=b=c] and at [:set  wrap]. *)
Lemma scan_command_set_option_and_value_witness :
  (∃ st' t,
     scan_command_set (ScannerState.new "  a=b=c")
       = Returned st' None [TokenSet t; TokenEof] ∧
     option_ t = Some (Some "a") ∧ value t = Some (Some "b=c")) ∧
  (∃ st' t,
     scan_command_set (ScannerState.new "  wrap")
       = Returned st' None [TokenSet t; TokenEof] ∧
     option_ t = Some (Some "wrap") ∧ value t = Some None).
Proof.
  split.
  - apply (proj1 scan_command_set_option_and_value
             (ScannerState.new "  a=b=c") "a" "="%char "b=c");
      try reflexivity; try discriminate.
    right; reflexivity.
  - apply (proj2 scan_command_set_option_and_value
             (ScannerState.new "  wrap") "wrap");
      try reflexivity; discriminate.
Defined.

(** C4. The parameters of every token that [scan_command_set] returns hold
    both keys, [option] and [value]; and when the argument, past its
    leading spaces, cannot be read as an option, a separator ([=] or [:])
    and a value, neither empty, the parameter [value] is [None]. *)
Theorem scan_command_set_params_present st st' next tokens t :
  scan_command_set st = Returned st' next tokens →
  TokenSet t ∈ tokens →
  is_Some (params t !! "option") ∧
  is_Some (params t !! "value") ∧
  ((∀ opt sep val,
      is_separator sep → opt ≠ "" → val ≠ "" →
      after_spaces st ≠ opt +:+ String sep val) →
   params t !! "value" = Some None).
Proof.
  intros (m & Hm & -> & ->)%scan_returned_inv Ht.
  apply elem_of_cons in Ht as [[= ->]|Ht]; [|by apply list_elem_of_singleton in Ht].
  cbn [params]. destruct (params_lookup m) as [-> ->].
  split_and!; [done..|]. intros Hno. f_equal.
  apply match_inv in Hm as (opt & rest & Harg & Hopt & _ & [Hv|Hv]); [done|].
  destruct Hv as (sep & val & rest' & -> & Hsep & Hval & _).
  destruct (Hno opt sep (val +:+ rest')); [done..| |done].
  by destruct val.
Qed.

(** C4 at [:set wrap]. *)
Lemma scan_command_set_params_present_witness :
  ∃ t,
    is_Some (params t !! "option") ∧ is_Some (params t !! "value") ∧
    ((∀ opt sep val,
        is_separator sep → opt ≠ "" → val ≠ "" →
        after_spaces (ScannerState.new " wrap") ≠ opt +:+ String sep val) →
     params t !! "value" = Some None).
Proof.
  eexists.
  eapply (scan_command_set_params_present (ScannerState.new " wrap")).
  - reflexivity.
  - left.
Defined.

(** C5. Whenever [scan_command_set] returns, it returns [None] and a list
    of two tokens, a [TokenSet] and a [TokenEof]; the [TokenSet] is named
    [set] and its target command is [ex_set]. *)
Theorem scan_command_set_returns_set_and_eof st st' next tokens :
  scan_command_set st = Returned st' next tokens →
  next = None ∧
  ∃ t, tokens = [TokenSet t; TokenEof] ∧
       content t = "set" ∧ target_command t = "ex_set".
Proof.
  intros (m & _ & -> & ->)%scan_returned_inv.
  split; [done|]. by eexists.
Qed.

(** C5 at [:set a=b]. *)
Lemma scan_command_set_returns_set_and_eof_witness :
  ∃ st' next tokens,
    scan_command_set (ScannerState.new "a=b") = Returned st' next tokens ∧
    next = None ∧
    ∃ t, tokens = [TokenSet t; TokenEof] ∧
         content t = "set" ∧ target_command t = "ex_set".
Proof.
  eexists _, _, _. split; [reflexivity|].
  eapply (scan_command_set_returns_set_and_eof (ScannerState.new "a=b")).
  reflexivity.
Defined.

(** C8. [scan_command_set] raises when nothing is left past the leading
    spaces; and whenever it returns, the parameter [option] of its token is
    a string that is not empty, never [None]. *)
Theorem scan_command_set_needs_an_option :
  (∀ st, after_spaces st = "" →
     scan_command_set st = Raised (ScannerState.ValueError "")) ∧
  (∀ st st' next tokens t,
     scan_command_set st = Returned st' next tokens →
     TokenSet t ∈ tokens →
     ∃ opt, params t !! "option" = Some (Some opt) ∧ opt ≠ "").
Proof.
  split.
  - intros st Harg. rewrite scan_not_matched; rewrite Harg; done.
  - intros st st' next tokens t (m & Hm & -> & ->)%scan_returned_inv Ht.
    apply elem_of_cons in Ht as [[= ->]|Ht]; [|by apply list_elem_of_singleton in Ht].
    cbn [params]. destruct (params_lookup m) as [-> _].
    apply match_inv in Hm as (opt & rest & _ & Hopt & -> & _). eauto.
Qed.

(** C8 at [:set] followed by spaces only, and at [:set a=b]. *)
Lemma scan_command_set_needs_an_option_witness :
  scan_command_set (ScannerState.new "   ") = Raised (ScannerState.ValueError "") ∧
  ∃ t opt, params t !! "option" = Some (Some opt) ∧ opt ≠ "".
Proof.
  split.
  - apply (proj1 scan_command_set_needs_an_option (ScannerState.new "   ")).
    reflexivity.
  - eexists.
    eapply (proj2 scan_command_set_needs_an_option (ScannerState.new "a=b")).
    + reflexivity.
    + left.
Defined.

(** In a text that ends with [d] and holds no [c] before that, a [c] can
    only be the last character. *)
Lemma only_last_character c d s p1 p2 :
  contains c s = false → s +:+ String d "" = p1 +:+ String c p2 → p2 = "".
Proof.
  revert p1. induction s as [|e s IH]; intros [|e' p1] Hc.
  - by intros [= _ <-].
  - rewrite app_nil_l, app_cons. intros [= _ Heq]. by destruct p1.
  - rewrite app_cons, app_nil_l. intros [= <- _]. simpl in Hc.
    by rewrite decide_True in Hc.
  - rewrite !app_cons. intros [= _ Heq]. simpl in Hc.
    destruct (decide (c = e)); [done|]. by apply (IH p1).
Qed.

(** C9, as stated, fails at [:set a=b=]: the text ends with a separator,
    and yet the option is [a] and the value is [b=]. *)
Lemma scan_command_set_trailing_separator_counterexample :
  after_spaces (ScannerState.new "a=b=") = "a=b" +:+ String "="%char "" ∧
  ∃ st' t,
    scan_command_set (ScannerState.new "a=b=")
      = Returned st' None [TokenSet t; TokenEof] ∧
    option_ t = Some (Some "a") ∧ value t = Some (Some "b=") ∧
    option_ t ≠ Some (Some "a=b=") ∧ value t ≠ Some None.
Proof.
  split; [reflexivity|].
  eexists _, _. split; [reflexivity|]. by vm_compute.
Qed.

(** C9, amended. On a command line (one line), when the argument of [:set],
    past its leading spaces, reads [opt=] or [opt:] and [opt] holds no [=]
    and no [:] past its first character, [scan_command_set] keeps the
    trailing separator: the [option] of the token is the whole text, with
    its last [=] or [:], and its [value] is [None]. *)
Theorem scan_command_set_keeps_trailing_separator st opt sep :
  single_line (ScannerState.source st) →
  after_spaces st = opt +:+ String sep "" →
  is_separator sep →
  contains ":"%char (drop 1 opt) = false →
  contains "="%char (drop 1 opt) = false →
  ∃ st' t,
    scan_command_set st = Returned st' None [TokenSet t; TokenEof] ∧
    option_ t = Some (Some (opt +:+ String sep "")) ∧ value t = Some None.
Proof.
  intros Hline%after_spaces_single_line Harg Hsep Hc He.
  rewrite Harg in Hline.
  assert (Re.match_ set_pattern (after_spaces st) =
          Some {| Re.span := String.length (opt +:+ String sep "");
                  Re.groups := <["option" := opt +:+ String sep ""]> ∅ |}) as Hm.
  { rewrite Harg. apply match_option_only; [by destruct opt|done|].
    intros p1 c p2 Heq Hp1 Hsepc.
    destruct opt as [|o opt], p1 as [|o' p1]; try done.
    - rewrite app_nil_l, app_cons in Heq. injection Heq as _ Heq. by destruct p1.
    - rewrite !app_cons in Heq. injection Heq as _ Heq.
      simpl in Hc, He.
      destruct Hsepc as [-> | ->].
      + exact (only_last_character _ _ _ _ _ Hc Heq).
      + exact (only_last_character _ _ _ _ _ He Heq). }
  destruct (scan_matched st _ Hm) as [st' ->].
  eexists st', _. split; [done|].
  unfold option_, value, getitem. cbn [params].
  destruct (params_lookup {| Re.span := String.length (opt +:+ String sep "");
      Re.groups := <["option" := opt +:+ String sep ""]> ∅ |}) as [-> ->].
  by simplify_map_eq.
Qed.

(** C9, amended, at [:set wrap=]. *)
Lemma scan_command_set_keeps_trailing_separator_witness :
  ∃ st' t,
    scan_command_set (ScannerState.new " wrap=")
      = Returned st' None [TokenSet t; TokenEof] ∧
    option_ t = Some (Some "wrap=") ∧ value t = Some None.
Proof.
  apply (scan_command_set_keeps_trailing_separator
           (ScannerState.new " wrap=") "wrap" "="%char);
    try reflexivity.
  right; reflexivity.
Defined.

End ScanSetClaims.

(** ** Computations over the editor *)

Module HostFacts.
Import Host.

Lemma call_no_faults {A} (f : world → outcome A) w :
  faults w = [] → call f w = f w.
Proof. unfold call. by intros ->. Qed.

(** What a [call] does, whatever the fault list says. *)
Lemma call_cases {A} (f : world → outcome A) w :
  (∃ e rest, faults w = Some e :: rest ∧ call f w = Raise e (set_faults rest w)) ∨
  (∃ rest, call f w = f (set_faults rest w)).
Proof.
  unfold call. destruct (faults w) as [|[e|] rest] eqn:Hf; eauto.
  right. exists []. by destruct w; simplify_eq/=.
Qed.

Lemma bind_Ok {A B} (m : M A) (f : A → M B) w a w' :
  m w = Ok a w' → (m ≫= f) w = f a w'.
Proof. unfold mbind, M_bind. by intros ->. Qed.

(** A [try] whose handler returns, returns. *)
Lemma try_returns {L} (body : list (L → M L)) except l w :
  (∀ e l w, ∃ l' w', except e l w = Ok l' w') →
  ∃ l' w', try_ body except l w = Ok l' w'.
Proof.
  intros Hex. revert l w. induction body as [|stmt body IH]; intros l w; simpl.
  - eauto.
  - destruct (stmt l w); eauto.
Qed.

(** *** Computations that show no dialog *)

Local Abbreviation quiet c := (∀ w, dialogs (final (c w)) = dialogs w).

Lemma dialogs_emit ev w :
  dialogs (emit ev w) =
    (dialogs w ++ match ev with MessageDialog m => [m] | _ => [] end)%list.
Proof. unfold dialogs, emit. simpl. rewrite omap_app. by destruct ev. Qed.

Lemma quiet_bind {A B} (m : M A) (f : A → M B) :
  quiet m → (∀ a, quiet (f a)) → quiet (m ≫= f).
Proof.
  intros Hm Hf w. unfold mbind, M_bind. specialize (Hm w).
  destruct (m w) as [a w'|e w']; simpl in *; [|done]. by rewrite Hf.
Qed.

Lemma quiet_call {A} (f : world → outcome A) :
  (∀ w, dialogs (final (f w)) = dialogs w) → quiet (call f).
Proof.
  intros Hf w. unfold call.
  destruct (faults w) as [|[e|] rest]; [done..|]. by rewrite Hf.
Qed.

Lemma quiet_say ev :
  (∀ m, ev ≠ MessageDialog m) → quiet (say ev).
Proof.
  intros Hev w. simpl. rewrite dialogs_emit.
  destruct ev; try by rewrite app_nil_r. by edestruct Hev.
Qed.

Lemma quiet_for {A} (xs : list A) (body : A → M unit) :
  (∀ x, quiet (body x)) → quiet (for_ xs body).
Proof.
  intros Hbody. induction xs as [|x xs IH]; [done|].
  simpl. by apply quiet_bind.
Qed.

Lemma quiet_try {L} (body : list (L → M L)) except l :
  Forall (λ stmt, ∀ l, quiet (stmt l)) body →
  (∀ e l, quiet (except e l)) →
  quiet (try_ body except l).
Proof.
  intros Hbody Hex. revert l.
  induction Hbody as [|stmt body Hstmt _ IH]; intros l w; simpl; [done|].
  specialize (Hstmt l w). destruct (stmt l w) as [l' w'|e w']; simpl in *.
  - by rewrite IH.
  - by rewrite Hex.
Qed.

End HostFacts.

(** ** [plugin.py]: what returns, and what shows a dialog *)

Module PluginFacts.
Import Host HostFacts Plugin.

Local Abbreviation quiet c := (∀ w, dialogs (final (c w)) = dialogs w).

(** A host call that shows nothing. *)
Ltac quiet_host_call :=
  apply quiet_call; intros ?; simpl;
  repeat case_match; simpl;
  rewrite ?dialogs_emit, ?List.app_nil_r; reflexivity.

Ltac quiet_then tac :=
  apply quiet_bind; [tac|]; intros ?.

Lemma module_body_returns w : ∃ g w', module_body w = Ok g w'.
Proof. apply try_returns. intros e g w'. by eexists _, _. Qed.

Lemma quiet_traceback {L} e (l : L) : quiet (say (Traceback e);; mret l).
Proof. apply quiet_bind; [by apply quiet_say|done]. Qed.

Lemma quiet_update_ignored_packages : quiet _update_ignored_packages.
Proof.
  unfold _update_ignored_packages.
  quiet_then quiet_host_call. quiet_then quiet_host_call.
  destruct (nonempty _); [|done].
  quiet_then ltac:(by apply quiet_say).
  quiet_then quiet_host_call. quiet_host_call.
Qed.

Lemma quiet_cleanup_views : quiet _cleanup_views.
Proof.
  unfold _cleanup_views.
  quiet_then quiet_host_call. apply quiet_for. intros window.
  quiet_then quiet_host_call. apply quiet_for. intros view.
  do 3 quiet_then quiet_host_call. quiet_host_call.
Qed.

Section Bootstrap.
Variable init_state :
  view_id → list (list (gmap string value)) →
  list (list (gmap string value)) * option exn.

Lemma quiet_call_init_state g view : quiet (call_init_state init_state g view).
Proof.
  unfold call_init_state. destruct (init_state_bound g); [|done].
  quiet_host_call.
Qed.

Lemma plugin_loaded_init_returns g w :
  ∃ l w', plugin_loaded_init init_state g w = Ok l w'.
Proof.
  unfold plugin_loaded_init.
  edestruct (try_returns (L:=locals)) as (l1 & w1 & H1);
    [|erewrite bind_Ok by exact H1].
  { intros [] ??; by eexists _, _. }
  edestruct (try_returns (L:=locals)) as (l2 & w2 & H2);
    [|erewrite bind_Ok by exact H2].
  { intros ???; by eexists _, _. }
  apply try_returns. intros ???; by eexists _, _.
Qed.

Lemma quiet_plugin_loaded_init g : quiet (plugin_loaded_init init_state g).
Proof.
  unfold plugin_loaded_init.
  apply quiet_bind.
  { apply quiet_try.
    - repeat apply Forall_cons_2; try apply Forall_nil_2; intros l;
        [done|quiet_then quiet_host_call; done..].
    - intros [] l; first done; apply quiet_traceback. }
  intros l1. apply quiet_bind.
  { apply quiet_try; [|intros; apply quiet_traceback].
    apply Forall_singleton. intros l.
    apply quiet_bind; [apply quiet_update_ignored_packages|done]. }
  intros l2. apply quiet_try; [|intros; apply quiet_traceback].
  repeat apply Forall_cons_2; try apply Forall_nil_2; intros l; [done|].
  quiet_then quiet_host_call.
  apply quiet_bind; [quiet_host_call|]. intros [view|]; [|done].
  apply quiet_bind; [apply quiet_call_init_state|done].
Qed.

(** The error branch: the cleanup, then the message, printed and shown. *)
Lemma plugin_loaded_report_error g l w :
  truthy (_EXCEPTION g) || truthy (_exception l) = true →
  ∃ w1,
    dialogs w1 = dialogs w ∧
    plugin_loaded_report g l w =
      let message :=
        message_for
          (isinstance_ImportError (_EXCEPTION g) || isinstance_ImportError (_exception l))
          (bool_decide (pc_event l = Some "post_upgrade")) in
      Ok tt (emit (MessageDialog message)
               (emit (Printed ("NeoVintageous: " +:+ message)) w1)).
Proof.
  intros Herr. unfold plugin_loaded_report. rewrite Herr.
  edestruct (try_returns (L:=unit)) as ([] & w1 & H1);
    [|erewrite bind_Ok by exact H1].
  { intros ???; by eexists _, _. }
  exists w1. split; [|done].
  pose proof (quiet_try (L:=unit) [λ u, _cleanup_views;; mret u]
    (λ e u, say (Traceback e);; mret u) tt) as Hq.
  specialize (Hq
    ltac:(apply Forall_singleton; intros u;
          apply quiet_bind; [apply quiet_cleanup_views|done])
    ltac:(intros; apply quiet_traceback) w).
  by rewrite H1 in Hq.
Qed.

Lemma plugin_loaded_report_no_error g l w :
  truthy (_EXCEPTION g) || truthy (_exception l) = false →
  plugin_loaded_report g l w = Ok tt w.
Proof. intros Herr. unfold plugin_loaded_report. by rewrite Herr. Qed.

End Bootstrap.

Lemma message_says_restart b1 b2 :
  substring_of "Please restart Sublime Text" (message_for b1 b2) = true.
Proof. by destruct b1, b2; vm_compute. Qed.

Lemma truthy_spec e : truthy e = true ↔ e ≠ None.
Proof. by destruct e. Qed.

End PluginFacts.

Section PluginClaims.
Import Host HostFacts Plugin PluginFacts.

(** C7. No exception raised by a step of the module body, of
    [plugin_loaded] or of [plugin_unloaded] leaves them: whatever the calls
    into the host and into the other modules do, and whatever [init_state]
    does, the module body returns, [plugin_loaded] gets through its three
    [try] statements to the test of [_EXCEPTION] and [_exception] and
    returns, and [plugin_unloaded] returns, with the traceback of what
    [_cleanup_views] raised. *)
Theorem entry_points_never_raise init_state g w :
  (∃ g' w', module_body w = Ok g' w') ∧
  (∃ l w1 w',
     plugin_loaded_init init_state g w = Ok l w1 ∧
     plugin_loaded init_state g w = Ok tt w') ∧
  (∃ w', load init_state w = Ok tt w') ∧
  plugin_unloaded w =
    match _cleanup_views w with
    | Ok _ w' => Ok tt w'
    | Raise e w' => Ok tt (emit (Traceback e) w')
    end.
Proof.
  assert (∀ g w, ∃ l w1 w',
     plugin_loaded_init init_state g w = Ok l w1 ∧
     plugin_loaded init_state g w = Ok tt w') as Hloaded.
  { clear. intros g w.
    destruct (plugin_loaded_init_returns init_state g w) as (l & w1 & Hinit).
    exists l, w1. unfold plugin_loaded. rewrite (bind_Ok _ _ _ _ _ Hinit).
    destruct (truthy (_EXCEPTION g) || truthy (_exception l)) eqn:Herr.
    - destruct (plugin_loaded_report_error g l w1 Herr) as (w2 & _ & ->). eauto.
    - rewrite plugin_loaded_report_no_error by done. eauto. }
  split_and!.
  - apply module_body_returns.
  - apply Hloaded.
  - destruct (module_body_returns w) as (g' & w1 & Hbody).
    destruct (Hloaded g' w1) as (_ & _ & w' & _ & Hl).
    exists w'. unfold load. by rewrite (bind_Ok _ _ _ _ _ Hbody).
  - unfold plugin_unloaded. simpl. unfold mbind, M_bind.
    by destruct (_cleanup_views w) as [[] w'|e w'].
Qed.

(** When every call into the host and into the other modules raises, the
    plugin still loads to the end: five tracebacks, then the message,
    printed and shown. *)
Example load_with_every_call_failing :
  let e := Error "RuntimeError" "host" in
  ∃ w',
    load Sample.init_state_ok
      (set_faults (replicate 40 (Some e)) (Sample.editor [])) = Ok tt w' ∧
    output w' =
      [Traceback e; Traceback e; Traceback e; Traceback e; Traceback e;
       Printed ("NeoVintageous: An error occurred trying to load NeoVintageous. "
                +:+ "Please restart Sublime Text.");
       MessageDialog ("An error occurred trying to load NeoVintageous. "
                      +:+ "Please restart Sublime Text.")].
Proof. eexists. split; vm_compute; reflexivity. Qed.

(** C2. [plugin_loaded] shows a dialog exactly when an exception was
    recorded by the module body ([_EXCEPTION]) or by the initialization of
    the view state ([_exception]), and every message it shows holds the
    text [Please restart Sublime Text]. *)
Theorem plugin_loaded_dialog init_state g w :
  ∃ l w1 w',
    plugin_loaded_init init_state g w = Ok l w1 ∧
    plugin_loaded init_state g w = Ok tt w' ∧
    (dialogs_since w w' ≠ [] ↔ _EXCEPTION g ≠ None ∨ _exception l ≠ None) ∧
    Forall (λ message,
              substring_of "Please restart Sublime Text" message = true)
           (dialogs_since w w') ∧
    ∀ import_error post_upgrade,
      substring_of "Please restart Sublime Text"
        (message_for import_error post_upgrade) = true.
Proof.
  destruct (plugin_loaded_init_returns init_state g w) as (l & w1 & Hinit).
  pose proof (quiet_plugin_loaded_init init_state g w) as Hquiet.
  rewrite Hinit in Hquiet. simpl in Hquiet.
  exists l, w1. unfold plugin_loaded. rewrite (bind_Ok _ _ _ _ _ Hinit).
  destruct (truthy (_EXCEPTION g) || truthy (_exception l)) eqn:Herr.
  - destruct (plugin_loaded_report_error g l w1 Herr) as (w2 & Hw2 & ->).
    eexists. split_and!; [done..| | |apply message_says_restart];
      cbn zeta; unfold dialogs_since;
      rewrite !dialogs_emit, Hw2, Hquiet, List.app_nil_r, drop_app_length.
    + split; [intros _|done].
      apply orb_true_iff in Herr as [?%truthy_spec|?%truthy_spec]; auto.
    + apply Forall_singleton, message_says_restart.
  - rewrite plugin_loaded_report_no_error by done.
    eexists. split_and!; [done..| | |apply message_says_restart];
      unfold dialogs_since; rewrite Hquiet, drop_all.
    + apply orb_false_iff in Herr as [He1 He2].
      split; [done|]. intros [?%truthy_spec|?%truthy_spec]; congruence.
    + done.
Qed.

(** C2 at an editor where the module body failed on its first import. *)
Lemma plugin_loaded_dialog_witness :
  ∃ l w1 w',
    plugin_loaded_init Sample.init_state_ok Sample.import_failed
      (Sample.editor []) = Ok l w1 ∧
    plugin_loaded Sample.init_state_ok Sample.import_failed
      (Sample.editor []) = Ok tt w' ∧
    (dialogs_since (Sample.editor []) w' ≠ [] ↔
       _EXCEPTION Sample.import_failed ≠ None ∨ _exception l ≠ None) ∧
    Forall (λ message,
              substring_of "Please restart Sublime Text" message = true)
           (dialogs_since (Sample.editor []) w') ∧
    ∀ import_error post_upgrade,
      substring_of "Please restart Sublime Text"
        (message_for import_error post_upgrade) = true.
Proof.
  exact (plugin_loaded_dialog Sample.init_state_ok Sample.import_failed
           (Sample.editor [])).
Defined.

End PluginClaims.

(** ** [_update_ignored_packages] *)

Module IgnoredPackagesFacts.
Import Host HostFacts Plugin.

Lemma call_Ok_inv {A} (f : world → outcome A) w a w' :
  call f w = Ok a w' → ∃ rest, f (set_faults rest w) = Ok a w'.
Proof.
  destruct (call_cases f w) as [(e & rest & _ & ->)|[rest ->]]; [done|eauto].
Qed.

Lemma bind_Ok_inv {A B} (m : M A) (f : A → M B) w b w' :
  (m ≫= f) w = Ok b w' → ∃ a w1, m w = Ok a w1 ∧ f a w1 = Ok b w'.
Proof.
  unfold mbind, M_bind. destruct (m w) as [a w1|e w1]; [eauto|done].
Qed.

Lemma elem_of_conflicts x (l : list string) :
  x ∈ filter (λ x, in_ x l = false) ["Six"; "Vintage"; "Vintageous"] ↔
  x ∈ ["Six"; "Vintage"; "Vintageous"] ∧ x ∉ l.
Proof.
  rewrite list_elem_of_filter. unfold in_.
  rewrite bool_decide_eq_false. tauto.
Qed.

Lemma conflicts_nil (l : list string) :
  filter (λ x, in_ x l = false) ["Six"; "Vintage"; "Vintageous"] = [] ↔
  "Six" ∈ l ∧ "Vintage" ∈ l ∧ "Vintageous" ∈ l.
Proof.
  split.
  - intros Hnil.
    assert (∀ x, x ∈ ["Six"; "Vintage"; "Vintageous"] → x ∈ l) as Hall.
    { intros x Hx. destruct (decide (x ∈ l)) as [|Hn]; [done|].
      assert (x ∈ filter (λ x, in_ x l = false) ["Six"; "Vintage"; "Vintageous"])
        as Hf by by apply elem_of_conflicts.
      rewrite Hnil in Hf. by apply elem_of_nil in Hf. }
    split_and!; apply Hall; repeat constructor.
  - intros (H1 & H2 & H3).
    apply elem_of_nil_inv. intros x [Hx Hn]%elem_of_conflicts.
    apply Hn. repeat (apply elem_of_cons in Hx as [->|Hx]; [done|]).
    by apply elem_of_nil in Hx.
Qed.

Lemma nonempty_spec {A} (l : list A) : nonempty l = false ↔ l = [].
Proof. by destruct l. Qed.

(** What a run that returns has done. *)
Lemma update_ignored_packages_Ok w w' :
  _update_ignored_packages w = Ok tt w' →
  let before := default [] (preferences w !! "ignored_packages") in
  let missing :=
    filter (λ x, in_ x before = false) ["Six"; "Vintage"; "Vintageous"] in
  if nonempty missing then
    preferences w' =
      <["ignored_packages" := sorted (before ++ missing)]> (preferences w) ∧
    output w' =
      (output w ++
       [Printed ("NeoVintageous: update ignored packages with conflicts "
                 +:+ repr_names missing);
        PreferencesSet "ignored_packages" (sorted (before ++ missing));
        Saved "Preferences.sublime-settings"])%list ∧
    windows w' = windows w
  else
    preferences w' = preferences w ∧ output w' = output w ∧
    windows w' = windows w.
Proof.
  unfold _update_ignored_packages.
  intros ([] & w1 & [r1 [= <-]]%call_Ok_inv & Hrun)%bind_Ok_inv.
  apply bind_Ok_inv in Hrun as (before & w2 & [r2 [= <- <-]]%call_Ok_inv & Hrun).
  cbn [set_faults preferences] in Hrun. cbn zeta.
  destruct (nonempty _).
  - apply bind_Ok_inv in Hrun as ([] & w3 & [= <-] & Hrun).
    apply bind_Ok_inv in Hrun as ([] & w4 & [r4 [= <-]]%call_Ok_inv & Hrun).
    apply call_Ok_inv in Hrun as [r5 [= <-]]. simpl.
    by rewrite <-!(assoc_L (++)).
  - by injection Hrun as <-.
Qed.

(** With no fault ahead, the run returns. *)
Lemma update_ignored_packages_returns w :
  faults w = [] → ∃ w', _update_ignored_packages w = Ok tt w'.
Proof.
  intros Hf. unfold _update_ignored_packages, load_settings, preferences_get,
    preferences_set, save_settings, mbind, M_bind.
  rewrite !call_no_faults by done.
  destruct (nonempty _); [|by eauto].
  simpl. rewrite !call_no_faults by done. eauto.
Qed.

Lemma sorted_Sorted l : Sorted String.le (sorted l).
Proof. apply (Sorted_merge_sort String.le). Qed.

Lemma sorted_Permutation l : sorted l ≡ₚ l.
Proof. apply merge_sort_Permutation. Qed.

End IgnoredPackagesFacts.

Section IgnoredPackagesClaims.
Import Host HostFacts Plugin IgnoredPackagesFacts.

(** C6, as stated, fails when the three packages are already ignored, in
    an order that is not sorted: nothing is stored, and the list stays as
    it was. *)
Lemma update_ignored_packages_sorted_counterexample :
  let w := Sample.editor ["Vintageous"; "Vintage"; "Six"] in
  ∃ w',
    _update_ignored_packages w = Ok tt w' ∧
    preferences w' !! "ignored_packages" = Some ["Vintageous"; "Vintage"; "Six"] ∧
    ¬ Sorted String.le ["Vintageous"; "Vintage"; "Six"].
Proof.
  eexists. split_and!; [reflexivity..|].
  intros Hs. apply Sorted_inv in Hs as [_ Hhd].
  apply HdRel_inv in Hhd. by vm_compute in Hhd.
Qed.

(** C6, amended. After [_update_ignored_packages] has run, the stored list
    of ignored packages holds [Six], [Vintage] and [Vintageous] and every
    element of the list it had before. When at least one of the three was
    missing, the stored list is the sorted list of the former elements and
    the missing ones, and the settings file is saved; when none was
    missing, the list is left as it was. *)
Theorem update_ignored_packages_result w w' :
  _update_ignored_packages w = Ok tt w' →
  let before := default [] (preferences w !! "ignored_packages") in
  let after := default [] (preferences w' !! "ignored_packages") in
  let missing :=
    filter (λ x, x ∉ before) ["Six"; "Vintage"; "Vintageous"] in
  "Six" ∈ after ∧ "Vintage" ∈ after ∧ "Vintageous" ∈ after ∧
  (∀ x, x ∈ before → x ∈ after) ∧
  (missing ≠ [] →
     Sorted String.le after ∧ after ≡ₚ before ++ missing ∧
     ∃ printed,
       output w' =
         (output w ++
          [printed; PreferencesSet "ignored_packages" after;
           Saved "Preferences.sublime-settings"])%list) ∧
  (missing = [] → after = before ∧ output w' = output w).
Proof.
  intros Hrun%update_ignored_packages_Ok. cbn zeta in *.
  set (before := default [] (preferences w !! "ignored_packages")) in *.
  assert (filter (λ x, x ∉ before) ["Six"; "Vintage"; "Vintageous"] =
          filter (λ x, in_ x before = false) ["Six"; "Vintage"; "Vintageous"])
    as ->.
  { apply list_filter_iff. intros x. unfold in_.
    by rewrite bool_decide_eq_false. }
  set (missing := filter _ _) in *.
  destruct (nonempty missing) eqn:Hne.
  - destruct Hrun as (-> & -> & _). rewrite lookup_insert_eq. simpl.
    assert (∀ x, x ∈ ["Six"; "Vintage"; "Vintageous"] →
                 x ∈ sorted (before ++ missing)) as Hall.
    { intros x Hx. rewrite sorted_Permutation, elem_of_app.
      destruct (decide (x ∈ before)); [by left|right].
      by apply elem_of_conflicts. }
    split_and!; try (apply Hall; repeat constructor).
    + intros x Hx. rewrite sorted_Permutation, elem_of_app. by left.
    + intros _. split_and!;
        [apply sorted_Sorted|apply sorted_Permutation|by eexists].
    + intros Hnil. by rewrite Hnil in Hne.
  - destruct Hrun as (-> & -> & _).
    apply nonempty_spec in Hne. fold before.
    apply conflicts_nil in Hne as Hall. destruct Hall as (? & ? & ?).
    split_and!; done.
Qed.

(** C6, amended, at an editor that ignores [Zed] and [Vintage]. *)
Lemma update_ignored_packages_result_witness :
  let w := Sample.editor ["Zed"; "Vintage"] in
  let w' := final (_update_ignored_packages w) in
  _update_ignored_packages w = Ok tt w' ∧
  preferences w' !! "ignored_packages"
    = Some ["Six"; "Vintage"; "Vintageous"; "Zed"] ∧
  Sorted String.le (default [] (preferences w' !! "ignored_packages")) ∧
  Saved "Preferences.sublime-settings" ∈ output w'.
Proof.
  intros w w'.
  assert (_update_ignored_packages w = Ok tt w') as Hrun
    by (vm_compute; reflexivity).
  split; [exact Hrun|]. split; [vm_compute; reflexivity|].
  destruct (update_ignored_packages_result w w' Hrun)
    as (_ & _ & _ & _ & Hmissing & _).
  destruct Hmissing as (Hsorted & _ & printed & Hout).
  - intros Hnil. vm_compute in Hnil. discriminate Hnil.
  - split; [exact Hsorted|]. rewrite Hout.
    apply elem_of_app. right. do 2 right. left.
Defined.

(** C10. When [Six], [Vintage] and [Vintageous] are all in the list of
    ignored packages, [_update_ignored_packages] writes nothing: however
    it ends, the preferences are as they were and nothing was set, saved
    or printed; and with no failing call ahead it returns and leaves the
    editor as it was. *)
Theorem update_ignored_packages_no_write w :
  let ignored_packages := default [] (preferences w !! "ignored_packages") in
  "Six" ∈ ignored_packages →
  "Vintage" ∈ ignored_packages →
  "Vintageous" ∈ ignored_packages →
  preferences (final (_update_ignored_packages w)) = preferences w ∧
  output (final (_update_ignored_packages w)) = output w ∧
  (faults w = [] → _update_ignored_packages w = Ok tt w).
Proof.
  intros before H1 H2 H3.
  assert (filter (λ x, in_ x before = false) ["Six"; "Vintage"; "Vintageous"] = [])
    as Hnil by by apply conflicts_nil.
  unfold _update_ignored_packages, load_settings, preferences_get, mbind, M_bind.
  split_and!.
  - destruct (call_cases (λ w, Ok tt w) w) as [(e & r & _ & ->)|[r ->]]; [done|].
    destruct (call_cases (λ w, Ok (default [] (preferences w !! "ignored_packages")) w)
                (set_faults r w)) as [(e & r' & _ & ->)|[r' ->]]; [done|].
    cbn [set_faults preferences]. fold before. by rewrite Hnil.
  - destruct (call_cases (λ w, Ok tt w) w) as [(e & r & _ & ->)|[r ->]]; [done|].
    destruct (call_cases (λ w, Ok (default [] (preferences w !! "ignored_packages")) w)
                (set_faults r w)) as [(e & r' & _ & ->)|[r' ->]]; [done|].
    cbn [set_faults preferences]. fold before. by rewrite Hnil.
  - intros Hf. rewrite !call_no_faults by done. fold before. by rewrite Hnil.
Qed.

(** C10 at an editor that ignores the three packages, not in order. *)
Lemma update_ignored_packages_no_write_witness :
  let w := Sample.editor ["Vintageous"; "Vintage"; "Six"] in
  preferences (final (_update_ignored_packages w)) = preferences w ∧
  output (final (_update_ignored_packages w)) = output w ∧
  (faults w = [] → _update_ignored_packages w = Ok tt w).
Proof.
  apply (update_ignored_packages_no_write
           (Sample.editor ["Vintageous"; "Vintage"; "Six"]));
    vm_compute; repeat constructor.
Defined.

End IgnoredPackagesClaims.

(** ** [_cleanup_views] *)

Module CleanupFacts.
Import Host HostFacts Plugin.
Local Open Scope list_scope.

(** What the three calls on the settings of one view come to. *)
Local Abbreviation cleaned :=
  (λ settings : gmap string value,
     delete "vintage"
       (<["inverse_caret_state" := VBool false]>
          (<["command_mode" := VBool false]> settings))).

Lemma set_windows_set_windows ws ws' w :
  set_windows ws (set_windows ws' w) = set_windows ws w.
Proof. done. Qed.

Lemma set_windows_id w : set_windows (windows w) w = w.
Proof. by destruct w. Qed.

Lemma on_view_on_view view f g w :
  on_view view f (on_view view g w) = on_view view (f ∘ g) w.
Proof.
  unfold on_view. simpl. rewrite set_windows_set_windows. f_equal.
  rewrite list_alter_alter_eq. apply list_alter_ext; [|done].
  intros vs _. simpl. by rewrite list_alter_alter_eq.
Qed.

(** A loop whose body goes through does its steps in turn. *)
Lemma for_steps {A} (xs : list A) (body : A → M unit) (step : A → world → world) w :
  (∀ x w, faults w = [] → body x w = Ok tt (step x w)) →
  (∀ x w, faults w = [] → faults (step x w) = []) →
  faults w = [] →
  for_ xs body w = Ok tt (foldl (λ w x, step x w) w xs).
Proof.
  intros Hbody Hfaults. revert w.
  induction xs as [|x xs IH]; intros w Hw; [done|].
  simpl. erewrite bind_Ok by by apply Hbody. apply IH. by apply Hfaults.
Qed.

Lemma alter_each {A} (f : A → A) (suf pre : list A) :
  foldl (λ l j, alter f j l) (pre ++ suf) (seq (length pre) (length suf))
  = pre ++ (f <$> suf).
Proof.
  revert pre. induction suf as [|x suf IH]; intros pre; [done|].
  simpl. rewrite alter_app_r_alt by done. rewrite Nat.sub_diag. simpl.
  rewrite (cons_middle (f x)), (assoc_L (++)).
  replace (S (length pre)) with (length (pre ++ [f x]))
    by (rewrite length_app; simpl; lia).
  rewrite IH. by rewrite <-(assoc_L (++)).
Qed.

Lemma alter_all {A} (f : A → A) (l : list A) :
  foldl (λ l j, alter f j l) l (seq 0 (length l)) = f <$> l.
Proof. apply (alter_each f l []). Qed.

Lemma alter_views_of_window {A} (f : A → A) (i : nat) (js : list nat)
    (ws : list (list A)) :
  foldl (λ ws (v : nat * nat), alter (alter f v.2) v.1 ws) ws ((λ j, (i, j)) <$> js)
  = alter (λ vs, foldl (λ l j, alter f j l) vs js) i ws.
Proof.
  revert ws. induction js as [|j js IH]; intros ws; simpl.
  - by rewrite list_alter_id.
  - by rewrite IH, list_alter_alter_eq.
Qed.

Lemma windows_foldl_on_view f (vs : list view_id) w :
  foldl (λ w v, on_view v f w) w vs
  = set_windows (foldl (λ ws (v : nat * nat), alter (alter f v.2) v.1 ws)
                   (windows w) vs) w.
Proof.
  revert w. induction vs as [|v vs IH]; intros w; simpl.
  - by rewrite set_windows_id.
  - rewrite IH. unfold on_view. simpl. by rewrite set_windows_set_windows.
Qed.

(** The body of the inner loop, on one view. *)
Lemma cleanup_view view w :
  faults w = [] →
  (settings ← view_settings view;
   settings_set settings "command_mode" (VBool false);;
   settings_set settings "inverse_caret_state" (VBool false);;
   settings_erase settings "vintage") w
  = Ok tt (on_view view cleaned w).
Proof.
  intros Hf. unfold view_settings, settings_set, settings_erase, mbind, M_bind.
  rewrite !call_no_faults by done. by rewrite !on_view_on_view.
Qed.

(** The body of the outer loop, on one window. *)
Lemma cleanup_window window w :
  faults w = [] →
  (vs ← window_views window;
   for_ vs (λ view,
     settings ← view_settings view;
     settings_set settings "command_mode" (VBool false);;
     settings_set settings "inverse_caret_state" (VBool false);;
     settings_erase settings "vintage")) w
  = Ok tt (set_windows (alter (fmap cleaned) window (windows w)) w).
Proof.
  intros Hf. unfold window_views at 1. unfold mbind at 1, M_bind at 1.
  rewrite call_no_faults by done.
  rewrite (for_steps _ _ (λ v w, on_view v cleaned w));
    [|by apply cleanup_view|done..].
  rewrite windows_foldl_on_view, alter_views_of_window. do 2 f_equal.
  apply list_alter_ext; [|done]. intros vs ->. simpl. apply alter_all.
Qed.

(** With no failing call ahead, [_cleanup_views] cleans every view. *)
Lemma cleanup_views_no_faults w :
  faults w = [] →
  _cleanup_views w
  = Ok tt (set_windows (fmap (M:=list) cleaned <$> windows w) w).
Proof.
  intros Hf. unfold _cleanup_views, sublime_windows.
  unfold mbind at 1, M_bind at 1. rewrite call_no_faults by done.
  rewrite (for_steps _ _
    (λ i w, set_windows (alter (fmap cleaned) i (windows w)) w));
    [|by apply cleanup_window|done..].
  f_equal. rewrite <-(alter_all (fmap cleaned) (windows w)).
  generalize (seq 0 (length (windows w))). intros idx. clear Hf. revert w.
  induction idx as [|i idx IH]; intros w; simpl.
  - by rewrite set_windows_id.
  - rewrite IH. simpl. by rewrite set_windows_set_windows.
Qed.

End CleanupFacts.

Section CleanupClaims.
Import Host HostFacts Plugin PluginFacts CleanupFacts.
Local Open Scope list_scope.

(** C3, as stated, fails: on the error path the views do not stay as they
    were. With the module body failed, [plugin_loaded] leaves the one view
    of this editor with [command_mode] and [inverse_caret_state] at
    [False] and without [vintage]. *)
Lemma plugin_loaded_error_path_counterexample :
  let w := Sample.editor ["Six"; "Vintage"; "Vintageous"] in
  ∃ w',
    plugin_loaded Sample.init_state_ok Sample.import_failed w = Ok tt w' ∧
    windows w =
      [[ {[ "command_mode" := VBool true;
            "inverse_caret_state" := VBool true;
            "vintage" := VStr "state";
            "tab_size" := VStr "4" ]} ]] ∧
    windows w' =
      [[ {[ "command_mode" := VBool false;
            "inverse_caret_state" := VBool false;
            "tab_size" := VStr "4" ]} ]] ∧
    windows w' ≠ windows w.
Proof.
  eexists. split; [vm_compute; reflexivity|].
  split; [reflexivity|]. split; [vm_compute; reflexivity|].
  intros Heq. vm_compute in Heq. discriminate Heq.
Qed.

(** C3, amended. When a load error was recorded ([_EXCEPTION] or
    [_exception]), [plugin_loaded] runs [_cleanup_views], prints the message
    and shows the dialog. When the calls of the cleanup go through, every
    view of every window is left with [command_mode] and
    [inverse_caret_state] set to [False] and with [vintage] erased; the
    other settings of the views and the preferences are left as they were
    when the error branch began. *)
Theorem plugin_loaded_error_path init_state g w l w1 :
  plugin_loaded_init init_state g w = Ok l w1 →
  _EXCEPTION g ≠ None ∨ _exception l ≠ None →
  faults w1 = [] →
  ∃ w' message,
    plugin_loaded init_state g w = Ok tt w' ∧
    windows w' =
      fmap (M:=list)
        (λ settings : gmap string value,
           delete "vintage"
             (<["inverse_caret_state" := VBool false]>
                (<["command_mode" := VBool false]> settings)))
      <$> windows w1 ∧
    preferences w' = preferences w1 ∧
    output w' =
      output w1 ++ [Printed ("NeoVintageous: " +:+ message);
                    MessageDialog message].
Proof.
  intros Hinit Herr Hf.
  assert (truthy (_EXCEPTION g) || truthy (_exception l) = true) as Herr'.
  { apply orb_true_iff. by rewrite !truthy_spec. }
  unfold plugin_loaded. rewrite (bind_Ok _ _ _ _ _ Hinit).
  unfold plugin_loaded_report. rewrite Herr'.
  unfold try_ at 1. unfold mbind at 1, M_bind at 1.
  unfold mbind at 1, M_bind at 1.
  rewrite cleanup_views_no_faults by done. simpl.
  eexists _, _. split; [reflexivity|]. simpl.
  split_and!; [done..|]. by rewrite <-(assoc_L (++)).
Qed.

(** C3, amended, at an editor where the module body failed. *)
Lemma plugin_loaded_error_path_witness :
  let w := Sample.editor ["Six"; "Vintage"; "Vintageous"] in
  ∃ w',
    plugin_loaded Sample.init_state_ok Sample.import_failed w = Ok tt w' ∧
    windows w' =
      [[ {[ "command_mode" := VBool false;
            "inverse_caret_state" := VBool false;
            "tab_size" := VStr "4" ]} ]] ∧
    preferences w' = preferences w.
Proof.
  intros w.
  destruct (plugin_loaded_error_path Sample.init_state_ok Sample.import_failed
              w (Locals None (Some (NameError "init_state")))
              (final (plugin_loaded_init Sample.init_state_ok
                        Sample.import_failed w)))
    as (w' & message & Hrun & Hwindows & Hprefs & _).
  - vm_compute. reflexivity.
  - left. discriminate.
  - vm_compute. reflexivity.
  - exists w'. split; [exact Hrun|]. split.
    + rewrite Hwindows. vm_compute. reflexivity.
    + rewrite Hprefs. vm_compute. reflexivity.
Defined.

End CleanupClaims.

(** * Further properties *)

(** ** The pattern of [:set]: every match, and the line feed *)

Module SetPatternMore.
Import Str StrFacts Re ReFacts SetPattern.

Local Abbreviation tail_pattern :=
  (Seq (Opt (NonCapturing
          (Seq (Atom (CharSet [":"%char; "="%char]))
               (Named "value" (LazyPlus Dot)))))
       EndOfString).

Local Abbreviation nl := (String LF "").

(** A match of [a+?]: the prefix it takes is not empty, all its characters
    match, the continuation accepts what is left and has refused every
    earlier stop. *)
Lemma lazy_plus_Some_first {R} a s (k : string → option R) x :
  lazy_plus a s k = Some x →
  ∃ pre post, s = pre +:+ post ∧ pre ≠ "" ∧
    (∀ c, contains c pre = true → atom_matches a c = true) ∧
    k post = Some x ∧
    (∀ p1 p2, pre = p1 +:+ p2 → p1 ≠ "" → p2 ≠ "" → k (p2 +:+ post) = None).
Proof.
  induction s as [|c s IH]; simpl; [done|].
  destruct (atom_matches a c) eqn:Hc; [|done].
  destruct (k s) as [y|] eqn:Hk.
  - intros [= ->]. exists (String c ""), s. split_and!; try done.
    + intros c'. simpl. by destruct (decide (c' = c)) as [->|].
    + intros [|? [|??]] [|??]; by intros [= ]. 
  - intros (pre & post & -> & Hpre & Hall & Hpost & Hfirst)%IH.
    exists (String c pre), post. split_and!; try done.
    + intros c'. simpl. destruct (decide (c' = c)) as [->|]; auto.
    + intros [|d p1] p2; [done|]. rewrite app_cons. intros [= <- Heq] _ Hp2.
      destruct p1 as [|d' p1].
      * rewrite app_nil_l in Heq. by subst.
      * by apply (Hfirst (String d' p1) p2).
Qed.

Lemma dot_prefix_single_line pre :
  (∀ c, contains c pre = true → atom_matches Dot c = true) →
  contains LF pre = false.
Proof.
  intros Hall. destruct (contains LF pre) eqn:Hc; [|done].
  by apply Hall in Hc.
Qed.

(** [a+?] matches when all the characters match and the continuation
    accepts the end of the text. *)
Lemma lazy_plus_is_Some {R} a s (k : string → option R) :
  s ≠ "" →
  (∀ c, contains c s = true → atom_matches a c = true) →
  is_Some (k "") →
  is_Some (lazy_plus a s k).
Proof.
  induction s as [|c s IH]; [done|]. intros _ Hall Hend. simpl.
  rewrite Hall by (simpl; by rewrite decide_True).
  destruct (k s) eqn:Hk; [done|].
  destruct s as [|d s]; [by rewrite Hk in Hend|].
  apply IH; [done| |done].
  intros c' Hc'. apply Hall. simpl in *. by destruct (decide (c' = c)).
Qed.

Lemma at_end_inv s : at_end s = true → s = "" ∨ s = nl.
Proof.
  destruct s as [|c [|d s]]; simpl; [by left| |done].
  intros ->%bool_decide_eq_true. by right.
Qed.

Lemma at_end_newline q : contains LF q = false → at_end (q +:+ nl) = at_end q.
Proof.
  destruct q as [|c [|d q]]; [done| |done].
  simpl. destruct (decide (LF = c)) as [<-|Hne]; [done|]. intros _.
  by rewrite bool_decide_eq_false_2.
Qed.

Lemma take_app_le n (s t : string) :
  (n ≤ String.length s)%nat → take n (s +:+ t) = take n s.
Proof.
  revert n. induction s as [|c s IH]; intros n Hn; simpl in Hn.
  - replace n with 0 by lia. by destruct t.
  - destruct n as [|n]; [done|].
    rewrite app_cons. simpl. f_equal. apply IH. lia.
Qed.

Lemma take_consumed_newline (s q : string) :
  take (String.length (s +:+ nl) - String.length (q +:+ nl)) (s +:+ nl)
  = take (String.length s - String.length q) s.
Proof.
  rewrite !length_app. simpl.
  replace (String.length s + 1 - (String.length q + 1))
    with (String.length s - String.length q) by lia.
  apply take_app_le. lia.
Qed.

(** A line feed at the end of the text changes nothing for [.+?]. *)
Lemma lazy_plus_newline {R} s (k k' : string → option R) :
  contains LF s = false →
  (∀ q, contains LF q = false → k' (q +:+ nl) = k q) →
  lazy_plus Dot (s +:+ nl) k' = lazy_plus Dot s k.
Proof.
  intros Hs Hk. induction s as [|c s IH]; [done|].
  rewrite app_cons. simpl in *.
  destruct (decide (LF = c)) as [|Hne]; [done|].
  rewrite Hk, IH by done. done.
Qed.

Lemma tail_newline {R} q caps (k k' : string → captures → option R) :
  contains LF q = false →
  (∀ r caps, contains LF r = false → k' (r +:+ nl) caps = k r caps) →
  run tail_pattern (q +:+ nl) caps k' = run tail_pattern q caps k.
Proof.
  intros Hq Hk. destruct q as [|c q].
  - rewrite app_nil_l. cbn. by rewrite <-(Hk "" caps).
  - rewrite app_cons. cbn [run].
    assert (contains LF q = false) as Hq'.
    { simpl in Hq. by destruct (decide (LF = c)). }
    rewrite <-app_cons, (at_end_newline (String c q)), app_cons by done.
    rewrite <-(Hk (String c q) caps) by done.
    destruct (atom_matches (CharSet _) c); [|done].
    rewrite (lazy_plus_newline q
      (λ s', if at_end s'
             then k s' (<["value" := take (String.length q - String.length s') q]> caps)
             else None)); [done..|].
    intros r Hr. rewrite at_end_newline, take_consumed_newline by done.
    destruct (at_end r); [|done]. by apply Hk.
Qed.

(** The match on a line and on the line with a line feed after it. *)
Lemma match_newline s :
  contains LF s = false →
  match_ set_pattern (s +:+ nl) = match_ set_pattern s.
Proof.
  intros Hs. rewrite !match_unfold.
  apply lazy_plus_newline; [done|]. intros q Hq.
  rewrite take_consumed_newline. apply tail_newline; [done|].
  intros r caps Hr. do 2 f_equal. rewrite !length_app. simpl. lia.
Qed.

End SetPatternMore.

Module ScanSetMore.
Import Str StrFacts Re ReFacts SetPattern SetPatternMore ScanSet.

Local Abbreviation nl := (String LF "").

Lemma drop_app_length (s t : string) : drop (String.length s) (s +:+ t) = t.
Proof. induction s as [|c s IH]; [done|]. by rewrite app_cons. Qed.

Lemma app_assoc' (s t u : string) : (s +:+ t) +:+ u = s +:+ (t +:+ u).
Proof. induction s as [|c s IH]; [done|]. by rewrite !app_cons, IH. Qed.

(** Every match: the option, then nothing or a separator and a value, then
    the end of the text or its last line feed. *)
Lemma match_inv_full s m :
  match_ set_pattern s = Some m →
  ∃ opt rest tail,
    s = opt +:+ (rest +:+ tail) ∧ opt ≠ "" ∧ contains LF opt = false ∧
    at_end tail = true ∧
    span m = String.length (opt +:+ rest) ∧
    groups m !! "option" = Some opt ∧
    ((rest = "" ∧ groups m !! "value" = None) ∨
     ∃ sep val, rest = String sep val ∧ is_separator sep ∧ val ≠ "" ∧
       contains LF val = false ∧ groups m !! "value" = Some val).
Proof.
  rewrite match_unfold.
  intros (opt & post & -> & Hopt & Hall & Hk & _)%lazy_plus_Some_first.
  apply dot_prefix_single_line in Hall.
  rewrite take_consumed in Hk. cbn [run] in Hk.
  destruct post as [|c post].
  { cbn in Hk. injection Hk as <-. exists opt, "", "".
    split_and!; try done; try (left; by simplify_map_eq).
    all: simpl; rewrite !length_app; simpl; lia. }
  destruct (atom_matches (CharSet _) c) eqn:Hc;
    [destruct (lazy_plus _ _ _) eqn:Hv|].
  - injection Hk as <-.
    apply lazy_plus_Some_first in Hv as (val & tail & -> & Hval & Hvall & Hv & _).
    apply dot_prefix_single_line in Hvall.
    destruct (at_end tail) eqn:Hend; [|done]. injection Hv as <-.
    exists opt, (String c val), tail. rewrite take_consumed.
    split_and!; try done.
    + simpl. rewrite !length_app. simpl. rewrite length_app. lia.
    + right. exists c, val. split_and!; try done. by apply separator_in_set.
  - destruct (at_end (String c post)) eqn:Hend; [|done]. injection Hk as <-.
    exists opt, "", (String c post).
    split_and!; try done; try (left; by simplify_map_eq).
    all: simpl; rewrite !length_app; simpl; lia.
  - destruct (at_end (String c post)) eqn:Hend; [|done]. injection Hk as <-.
    exists opt, "", (String c post).
    split_and!; try done; try (left; by simplify_map_eq).
    all: simpl; rewrite !length_app; simpl; lia.
Qed.

(** A line that is not empty always matches. *)
Lemma match_line_is_Some s :
  s ≠ "" → contains LF s = false → is_Some (match_ set_pattern s).
Proof.
  intros Hs Hline. rewrite match_unfold.
  apply lazy_plus_is_Some; [done|by eauto using dot_matches_single_line|].
  by rewrite tail_at_end.
Qed.

(** The state that a scan which matched leaves. *)
Lemma scan_matched_state st m :
  Re.match_ set_pattern (after_spaces st) = Some m →
  let skipped := ScannerState.skip " " st in
  scan_command_set st =
    Returned
      {| ScannerState.source := ScannerState.source st;
         ScannerState.position := ScannerState.position skipped + Re.span m;
         ScannerState.start := ScannerState.position skipped |}
      None
      [TokenSet_init (dict_update {[ "option" := None; "value" := None ]}
                                  (Re.groupdict set_pattern m));
       TokenEof].
Proof.
  intros Hm. unfold scan_command_set, ScannerState.expect_match.
  change (ScannerState.remainder (ScannerState.ignore (ScannerState.skip " " st)))
    with (after_spaces st).
  by rewrite Hm.
Qed.

(** The tokens of a scan depend on the text past the leading spaces only. *)
Lemma returned_tokens_after_spaces st1 st2 :
  after_spaces st1 = after_spaces st2 →
  returned_tokens (scan_command_set st1) = returned_tokens (scan_command_set st2).
Proof.
  intros Heq.
  destruct (Re.match_ set_pattern (after_spaces st1)) as [m|] eqn:Hm.
  - rewrite (scan_matched_state st1 m Hm).
    rewrite Heq in Hm. by rewrite (scan_matched_state st2 m Hm).
  - rewrite (scan_not_matched st1 Hm).
    rewrite Heq in Hm. by rewrite (scan_not_matched st2 Hm).
Qed.

(** Where the first separator that has something behind it is, if there is
    one. *)
Lemma first_separator u :
  (∃ pre sep val, u = pre +:+ String sep val ∧ is_separator sep ∧
     contains ":"%char pre = false ∧ contains "="%char pre = false ∧ val ≠ "") ∨
  (∀ p1 d p2, u = p1 +:+ String d p2 → is_separator d → p2 = "").
Proof.
  induction u as [|e u IH].
  - right. by intros [|??] ??.
  - destruct (decide (is_separator e)) as [He|He].
    + destruct u as [|f u].
      * right. intros [|? [|??]] d p2; [by intros [= _ <-]|by intros [= ]..].
      * left. exists "", e, (String f u). by rewrite app_nil_l.
    + destruct IH as [(pre & sep & val & -> & Hsep & Hc & Heq & Hval)|Hlast].
      * left. exists (String e pre), sep, val. rewrite app_cons.
        split_and!; try done; simpl.
        -- destruct (decide (":"%char = e)) as [<-|]; [|done].
           destruct He. by left.
        -- destruct (decide ("="%char = e)) as [<-|]; [|done].
           destruct He. by right.
      * right. intros [|e' p1] d p2.
        -- rewrite app_nil_l. by intros [= <- _] ?.
        -- rewrite app_cons. intros [= _ Heq]. by apply (Hlast p1).
Qed.

(** The match when the first separator past the first character has a
    value behind it. *)
Lemma match_first_separator c pre sep val :
  contains ":"%char pre = false → contains "="%char pre = false →
  is_separator sep → val ≠ "" →
  contains LF (String c pre) = false → contains LF val = false →
  match_ set_pattern (String c pre +:+ String sep val) =
    Some {| span := String.length (String c pre +:+ String sep val);
            groups := <["value" := val]> (<["option" := String c pre]> ∅) |}.
Proof.
  intros Hc He Hsep Hval Hlo Hlv.
  rewrite match_unfold, lazy_plus_first;
    [|done|by eauto using dot_matches_single_line|].
  - rewrite take_consumed, tail_takes_value by done.
    cbn [String.length]. by rewrite Nat.sub_0_r.
  - intros [|d p1] p2 Heq Hp1 Hp2; [done|].
    rewrite app_cons in Heq. injection Heq as _ ->.
    rewrite contains_app, orb_false_iff in Hc, He.
    destruct Hc as [_ Hc], He as [_ He].
    destruct p2 as [|c2 p2]; [done|]. rewrite app_cons.
    apply tail_fails_inside; [by eapply not_separator_head|].
    by destruct p2.
Qed.

End ScanSetMore.

Section ScanSetExtras.
Import Str StrFacts Re ReFacts SetPattern SetPatternMore ScanSet ScanSetMore.

(** X1. [scan_command_set] returns exactly when the text past the leading
    spaces is a line that is not empty, with at most a line feed after it;
    on any other text it raises the [ValueError] of [expect_match], which
    carries that text. *)
Theorem scan_command_set_returns_iff st :
  ((∃ st' next tokens, scan_command_set st = Returned st' next tokens) ↔
   (∃ line tail,
      after_spaces st = line +:+ tail ∧ line ≠ "" ∧ single_line line ∧
      (tail = "" ∨ tail = String LF ""))) ∧
  ((∀ st' next tokens, scan_command_set st ≠ Returned st' next tokens) →
   scan_command_set st = Raised (ScannerState.ValueError (after_spaces st))).
Proof.
  split; [split|].
  - intros (st' & next & tokens & (m & Hm & _)%scan_returned_inv).
    apply match_inv_full in Hm
      as (opt & rest & tail & Harg & Hopt & Hlo & Hend & _ & _ & Hrest).
    exists (opt +:+ rest), tail. rewrite app_assoc'.
    split_and!; [done|by destruct opt| |by apply at_end_inv].
    unfold single_line. rewrite contains_app, Hlo. simpl.
    destruct Hrest as [[-> _]|(sep & val & -> & Hsep & _ & Hlv & _)]; [done|].
    simpl. rewrite Hlv. by destruct Hsep as [-> | ->].
  - intros (line & tail & Harg & Hline & Hsingle & Htail).
    assert (is_Some (match_ set_pattern (after_spaces st))) as [m Hm].
    { rewrite Harg. destruct Htail as [-> | ->].
      - rewrite app_nil_r. by apply match_line_is_Some.
      - rewrite match_newline by done. by apply match_line_is_Some. }
    destruct (scan_matched st m Hm) as [st' ->]. eauto.
  - intros Hnot.
    destruct (match_ set_pattern (after_spaces st)) as [m|] eqn:Hm.
    + destruct (scan_matched st m Hm) as [st' Hscan]. by destruct (Hnot _ _ _ Hscan).
    + by apply scan_not_matched.
Qed.

(** X1 at [:set wrap], at [:set] with a line feed in the middle of its
    argument, and at a bare line feed. *)
Lemma scan_command_set_returns_iff_witness :
  (∃ st' next tokens,
     scan_command_set (ScannerState.new " wrap") = Returned st' next tokens) ∧
  scan_command_set (ScannerState.new ("a" +:+ String LF "b"))
    = Raised (ScannerState.ValueError ("a" +:+ String LF "b")) ∧
  scan_command_set (ScannerState.new (String LF ""))
    = Raised (ScannerState.ValueError (String LF "")).
Proof.
  split_and!.
  - apply (proj1 (scan_command_set_returns_iff (ScannerState.new " wrap"))).
    exists "wrap", "". split_and!; try reflexivity; [discriminate|by left].
  - apply (proj2 (scan_command_set_returns_iff
                    (ScannerState.new ("a" +:+ String LF "b")))).
    intros st' next tokens Hscan. vm_compute in Hscan. discriminate Hscan.
  - apply (proj2 (scan_command_set_returns_iff
                    (ScannerState.new (String LF "")))).
    intros st' next tokens Hscan. vm_compute in Hscan. discriminate Hscan.
Defined.

(** X2. A line feed at the end of the command line is not part of the
    option or of the value: a one-line text and the same text with a line
    feed after it give the same tokens, or both raise. *)
Theorem scan_command_set_ignores_final_line_feed st st_lf :
  single_line (after_spaces st) →
  after_spaces st_lf = after_spaces st +:+ String LF "" →
  returned_tokens (scan_command_set st_lf) = returned_tokens (scan_command_set st).
Proof.
  intros Hline Hlf.
  pose proof (match_newline (after_spaces st) Hline) as Hm. rewrite <-Hlf in Hm.
  destruct (Re.match_ set_pattern (after_spaces st)) as [m|] eqn:Hst.
  - by rewrite (scan_matched_state st m Hst), (scan_matched_state st_lf m Hm).
  - by rewrite (scan_not_matched st Hst), (scan_not_matched st_lf Hm).
Qed.

(** X2 at [:set a=b] with and without a final line feed. *)
Lemma scan_command_set_ignores_final_line_feed_witness :
  returned_tokens (scan_command_set (ScannerState.new ("a=b" +:+ String LF "")))
  = returned_tokens (scan_command_set (ScannerState.new "a=b")) ∧
  ∃ t, returned_tokens (scan_command_set (ScannerState.new "a=b"))
         = Some [TokenSet t; TokenEof] ∧
       value t = Some (Some "b").
Proof.
  split.
  - apply (scan_command_set_ignores_final_line_feed
             (ScannerState.new "a=b") (ScannerState.new ("a=b" +:+ String LF "")));
      reflexivity.
  - eexists. split; reflexivity.
Defined.

(** X3. When [scan_command_set] returns, nothing of the text is lost: the
    text past the leading spaces is the option, then the separator and the
    value when there is a value, then what the scanner has left, which is
    empty or one line feed. The source is unchanged and [start] is at the
    first character past the spaces. *)
Theorem scan_command_set_consumes_the_line st st' next tokens :
  scan_command_set st = Returned st' next tokens →
  ∃ t opt rest,
    tokens = [TokenSet t; TokenEof] ∧
    option_ t = Some (Some opt) ∧
    after_spaces st = opt +:+ rest +:+ ScannerState.remainder st' ∧
    (rest = "" ∧ value t = Some None ∨
     ∃ sep val, rest = String sep val ∧ is_separator sep ∧
                value t = Some (Some val)) ∧
    (ScannerState.remainder st' = "" ∨
     ScannerState.remainder st' = String LF "") ∧
    ScannerState.source st' = ScannerState.source st ∧
    drop (ScannerState.start st') (ScannerState.source st') = after_spaces st.
Proof.
  intros Hscan.
  destruct (scan_returned_inv _ _ _ _ Hscan) as (m & Hm & _ & ->).
  rewrite (scan_matched_state st m Hm) in Hscan. cbn zeta in Hscan.
  injection Hscan as Hst'.
  apply match_inv_full in Hm
    as (opt & rest & tail & Harg & Hopt & _ & Hend & Hspan & Ho & Hrest).
  assert (ScannerState.remainder st' = tail) as Hrem.
  { rewrite <-Hst'. unfold ScannerState.remainder.
    cbn [ScannerState.position ScannerState.source].
    rewrite drop_add.
    change (drop _ (ScannerState.source st)) with (after_spaces st).
    by rewrite Harg, Hspan, <-app_assoc', drop_app_length. }
  exists {| params := dict_update {[ "option" := None; "value" := None ]}
                                  (Re.groupdict set_pattern m);
            token_type_of := TOKEN_COMMAND_SET;
            content := "set";
            target_command := "ex_set" |}, opt, rest.
  rewrite Hrem. unfold option_, value, getitem. cbn [params].
  destruct (params_lookup m) as [-> ->]. rewrite Ho.
  split_and!; try done.
  - destruct Hrest as [[-> ->]|(sep & val & -> & Hsep & _ & _ & ->)]; [by left|].
    right. by exists sep, val.
  - by apply at_end_inv.
  - by rewrite <-Hst'.
  - by rewrite <-Hst'.
Qed.

(** X3 at [:set  tabstop:4]. *)
Lemma scan_command_set_consumes_the_line_witness :
  ∃ st' t opt rest,
    scan_command_set (ScannerState.new "  tabstop:4")
      = Returned st' None [TokenSet t; TokenEof] ∧
    option_ t = Some (Some opt) ∧
    "tabstop:4" = opt +:+ rest +:+ ScannerState.remainder st' ∧
    ScannerState.start st' = 2.
Proof.
  destruct (scan_command_set_consumes_the_line
              (ScannerState.new "  tabstop:4")
              {| ScannerState.source := "  tabstop:4";
                 ScannerState.position := 11;
                 ScannerState.start := 2 |}
              None
              [TokenSet_init {[ "option" := Some "tabstop"; "value" := Some "4" ]};
               TokenEof])
    as (t & opt & rest & Htokens & Hoption & Harg & _).
  - vm_compute. reflexivity.
  - injection Htokens as <-.
    eexists _, _, opt, rest. split; [vm_compute; reflexivity|].
    split; [exact Hoption|]. split; [exact Harg|reflexivity].
Defined.

End ScanSetExtras.

Section ScanSetLineExtras.
Import Str StrFacts Re ReFacts SetPattern SetPatternMore ScanSet ScanSetMore.

(** X4. Leading spaces do not count: one more space in front of the
    argument changes no token, and the option of a returned token never
    begins with a space. *)
Theorem scan_command_set_leading_spaces :
  (∀ s,
     returned_tokens (scan_command_set (ScannerState.new (String " " s)))
     = returned_tokens (scan_command_set (ScannerState.new s))) ∧
  (∀ st st' next tokens t opt,
     scan_command_set st = Returned st' next tokens →
     TokenSet t ∈ tokens →
     option_ t = Some (Some opt) →
     ∀ rest, opt ≠ String " " rest).
Proof.
  split.
  - intros s. by apply returned_tokens_after_spaces.
  - intros st st' next tokens t opt (m & Hm & -> & ->)%scan_returned_inv Ht.
    apply elem_of_cons in Ht as [[= ->]|Ht]; [|by apply list_elem_of_singleton in Ht].
    unfold option_, getitem. cbn [params].
    destruct (params_lookup m) as [-> _].
    apply match_inv_full in Hm as (opt' & rest' & tail & Harg & _ & _ & _ & _ & -> & _).
    intros [= <-] rest ->. rewrite app_cons in Harg.
    by apply after_spaces_no_space in Harg.
Qed.

(** X4 at [:set wrap], with one and with two spaces. *)
Lemma scan_command_set_leading_spaces_witness :
  returned_tokens (scan_command_set (ScannerState.new "  wrap"))
  = returned_tokens (scan_command_set (ScannerState.new " wrap")) ∧
  ∀ rest, "wrap" ≠ String " " rest.
Proof.
  split.
  - apply (proj1 scan_command_set_leading_spaces " wrap").
  - apply (proj2 scan_command_set_leading_spaces
             (ScannerState.new "  wrap")
             {| ScannerState.source := "  wrap";
                ScannerState.position := 6;
                ScannerState.start := 2 |}
             None
             [TokenSet_init {[ "option" := Some "wrap"; "value" := None ]};
              TokenEof]
             {| params := {[ "option" := Some "wrap"; "value" := None ]};
                token_type_of := TOKEN_COMMAND_SET;
                content := "set";
                target_command := "ex_set" |}).
    + vm_compute. reflexivity.
    + left.
    + reflexivity.
Defined.

(** X5. On a command line (one line) whose argument is not empty,
    [scan_command_set] always returns, and the first separator past the
    first character decides: when something follows it, the option is the
    text before it and the value the text after it; when no separator past
    the first character has anything behind it, the option is the whole
    text and the value is [None]. *)
Theorem scan_command_set_on_a_line st :
  single_line (ScannerState.source st) →
  after_spaces st ≠ "" →
  ∃ st' t,
    scan_command_set st = Returned st' None [TokenSet t; TokenEof] ∧
    ((∃ c pre sep val,
        after_spaces st = String c pre +:+ String sep val ∧
        is_separator sep ∧
        contains ":"%char pre = false ∧ contains "="%char pre = false ∧
        val ≠ "" ∧
        option_ t = Some (Some (String c pre)) ∧ value t = Some (Some val)) ∨
     ((∀ p1 d p2,
         after_spaces st = p1 +:+ String d p2 → p1 ≠ "" → is_separator d →
         p2 = "") ∧
      option_ t = Some (Some (after_spaces st)) ∧ value t = Some None)).
Proof.
  intros Hline%after_spaces_single_line Hne.
  destruct (after_spaces st) as [|c u] eqn:Harg; [done|].
  destruct (first_separator u)
    as [(pre & sep & val & -> & Hsep & Hc & He & Hval)|Hlast].
  - assert (contains LF (String c pre) = false ∧ contains LF val = false)
      as [Hlo Hlv].
    { rewrite <-app_cons, contains_app, orb_false_iff in Hline.
      destruct Hline as [? Hlv]. split; [done|].
      simpl in Hlv. by destruct (decide (LF = sep)). }
    pose proof (match_first_separator c pre sep val Hc He Hsep Hval Hlo Hlv) as Hm.
    rewrite app_cons, <-Harg in Hm at 1.
    rewrite (scan_matched_state st _ Hm). eexists _, _. split; [done|].
    left. exists c, pre, sep, val. rewrite app_cons.
    unfold option_, value, getitem. cbn [params].
    match goal with
    | |- context [groupdict set_pattern ?m] =>
        destruct (params_lookup m) as [-> ->]
    end.
    split_and!; try done; by simplify_map_eq.
  - assert (∀ p1 d p2, String c u = p1 +:+ String d p2 → p1 ≠ "" →
                        is_separator d → p2 = "") as Hlast'.
    { intros [|e p1] d p2; [done|]. rewrite app_cons. intros [= _ Heq] _.
      by apply (Hlast p1). }
    pose proof (match_option_only (String c u) ltac:(done) Hline Hlast') as Hm.
    rewrite <-Harg in Hm at 1.
    rewrite (scan_matched_state st _ Hm). eexists _, _. split; [done|].
    right. split; [done|].
    unfold option_, value, getitem. cbn [params].
    match goal with
    | |- context [groupdict set_pattern ?m] =>
        destruct (params_lookup m) as [-> ->]
    end.
    by simplify_map_eq.
Qed.

(** X5 at [:set =a=b], where the first character is a separator. *)
Lemma scan_command_set_on_a_line_witness :
  ∃ st' t,
    scan_command_set (ScannerState.new "=a=b")
      = Returned st' None [TokenSet t; TokenEof] ∧
    option_ t = Some (Some "=a") ∧ value t = Some (Some "b").
Proof.
  destruct (scan_command_set_on_a_line (ScannerState.new "=a=b"))
    as (st' & t & Hscan & _).
  - reflexivity.
  - discriminate.
  - exists st', t. split; [exact Hscan|].
    vm_compute in Hscan. injection Hscan as _ <-. split; reflexivity.
Defined.

End ScanSetLineExtras.

(** ** Invariants of the computations over the editor *)

Module InvariantFacts.
Import Host HostFacts.

Section Invariant.
(** A property of the editor that the fault list plays no part in. *)
Variable I : world → Prop.
Hypothesis I_faults : ∀ rest w, I w → I (set_faults rest w).

Local Abbreviation preserves c := (∀ w, I w → I (final (c w))).

Lemma preserves_ret {A} (a : A) : preserves (mret a : M A).
Proof. done. Qed.

Lemma preserves_bind {A B} (m : M A) (f : A → M B) :
  preserves m → (∀ a, preserves (f a)) → preserves (m ≫= f).
Proof.
  intros Hm Hf w Hw. unfold mbind, M_bind. specialize (Hm w Hw).
  destruct (m w) as [a w'|e w']; simpl in *; [|done]. by apply Hf.
Qed.

Lemma preserves_call {A} (f : world → outcome A) :
  (∀ w, I w → I (final (f w))) → preserves (call f).
Proof.
  intros Hf w Hw. unfold call.
  destruct (faults w) as [|[e|] rest]; simpl; auto.
Qed.

Lemma preserves_for {A} (xs : list A) (body : A → M unit) :
  (∀ x, preserves (body x)) → preserves (for_ xs body).
Proof.
  intros Hbody. induction xs as [|x xs IH]; [done|].
  simpl. apply preserves_bind; [apply Hbody|intros _; apply IH].
Qed.

Lemma preserves_try {L} (body : list (L → M L)) except l :
  Forall (λ stmt, ∀ l, preserves (stmt l)) body →
  (∀ e l, preserves (except e l)) →
  preserves (try_ body except l).
Proof.
  intros Hbody Hex. revert l.
  induction Hbody as [|stmt body Hstmt _ IH]; intros l w Hw; simpl; [done|].
  specialize (Hstmt l w Hw). destruct (stmt l w) as [l' w'|e w']; simpl in *.
  - by apply IH.
  - by apply Hex.
Qed.

End Invariant.

End InvariantFacts.

(** ** [_cleanup_views] and [_update_ignored_packages], whatever fails *)

Module FrameFacts.
Import Host HostFacts Plugin InvariantFacts IgnoredPackagesFacts CleanupFacts.
Local Open Scope list_scope.

(** The settings of a view that the cleanup leaves alone. *)
Local Abbreviation same_but_mode :=
  (λ before after : gmap string value,
     ∀ key, key ≠ "command_mode" → key ≠ "inverse_caret_state" →
            key ≠ "vintage" → after !! key = before !! key).

Local Abbreviation cleaned :=
  (λ settings : gmap string value,
     delete "vintage"
       (<["inverse_caret_state" := VBool false]>
          (<["command_mode" := VBool false]> settings))).

Lemma on_view_same_but_mode ws0 view f w :
  (∀ s0 s, same_but_mode s0 s → same_but_mode s0 (f s)) →
  Forall2 (Forall2 same_but_mode) ws0 (windows w) →
  Forall2 (Forall2 same_but_mode) ws0 (windows (on_view view f w)).
Proof.
  intros Hf Hws. simpl. apply Forall2_alter_r; [done|].
  intros vs0 vs _ _ Hvs. apply Forall2_alter_r; [done|].
  intros s0 s _ _. apply Hf.
Qed.

Lemma cleanup_views_preserves w0 w :
  (preferences w = preferences w0 ∧ output w = output w0 ∧
   active w = active w0 ∧
   Forall2 (Forall2 same_but_mode) (windows w0) (windows w)) →
  let w' := final (_cleanup_views w) in
  preferences w' = preferences w0 ∧ output w' = output w0 ∧
  active w' = active w0 ∧
  Forall2 (Forall2 same_but_mode) (windows w0) (windows w').
Proof.
  set (inv := λ w, preferences w = preferences w0 ∧ output w = output w0 ∧
    active w = active w0 ∧
    Forall2 (Forall2 same_but_mode) (windows w0) (windows w)).
  assert (∀ rest w, inv w → inv (set_faults rest w)) as Hfaults by done.
  assert (∀ settings f,
    (∀ s0 s, same_but_mode s0 s → same_but_mode s0 (f s)) →
    ∀ w, inv w → inv (final (call (λ w, Ok tt (on_view settings f w)) w)))
    as Hset.
  { intros settings f Hf. apply (preserves_call inv Hfaults).
    intros w' (? & ? & ? & Hws). unfold inv. split_and!; [done..|].
    by apply (on_view_same_but_mode _ settings f w'). }
  revert w. change (∀ w, inv w → inv (final (_cleanup_views w))).
  unfold _cleanup_views.
  apply (preserves_bind inv); [by apply (preserves_call inv Hfaults)|].
  intros ws. apply (preserves_for inv). intros window.
  apply (preserves_bind inv); [by apply (preserves_call inv Hfaults)|].
  intros vs. apply (preserves_for inv). intros view.
  apply (preserves_bind inv); [by apply (preserves_call inv Hfaults)|].
  intros settings.
  apply (preserves_bind inv); [|intros _; apply (preserves_bind inv); [|intros _]];
    apply Hset; intros s0 s Hs key ???.
  - rewrite lookup_insert_ne by done. by apply Hs.
  - rewrite lookup_insert_ne by done. by apply Hs.
  - rewrite lookup_delete_ne by done. by apply Hs.
Qed.

Lemma same_but_mode_refl (ws : list (list (gmap string value))) :
  Forall2 (Forall2 same_but_mode) ws ws.
Proof.
  apply Forall_Forall2_diag, Forall_forall. intros vs _.
  apply Forall_Forall2_diag, Forall_forall. by intros s _ key.
Qed.

Lemma cleaned_cleaned (s : gmap string value) : cleaned (cleaned s) = cleaned s.
Proof.
  apply map_eq. intros key.
  destruct (decide (key = "vintage")), (decide (key = "inverse_caret_state")),
    (decide (key = "command_mode")); by simplify_map_eq.
Qed.

(** With no failing call ahead, what [_update_ignored_packages] leaves. *)
Lemma update_ignored_packages_no_faults w :
  faults w = [] →
  let before := default [] (preferences w !! "ignored_packages") in
  let missing :=
    filter (λ x, in_ x before = false) ["Six"; "Vintage"; "Vintageous"] in
  _update_ignored_packages w =
    Ok tt
      (if nonempty missing then
         emit (Saved "Preferences.sublime-settings")
           (emit (PreferencesSet "ignored_packages" (sorted (before ++ missing)))
              (set_preferences
                 (<["ignored_packages" := sorted (before ++ missing)]>
                    (preferences w))
                 (emit (Printed
                          ("NeoVintageous: update ignored packages with conflicts "
                           +:+ repr_names missing)) w)))
       else w).
Proof.
  intros Hf. cbn zeta.
  unfold _update_ignored_packages, load_settings, preferences_get,
    preferences_set, save_settings, mbind, M_bind.
  rewrite !call_no_faults by done.
  destruct (nonempty _); [|done].
  simpl. by rewrite !call_no_faults.
Qed.

End FrameFacts.

Section CleanupExtras.
Import Host HostFacts Plugin CleanupFacts FrameFacts.
Local Open Scope list_scope.

(** X6. With no failing call ahead, [plugin_unloaded] resets every view of
    every window: [command_mode] and [inverse_caret_state] are [False],
    [vintage] is gone, and nothing else of the editor changes. Unloading
    once more changes nothing. *)
Theorem plugin_unloaded_resets_views w :
  faults w = [] →
  ∃ w',
    plugin_unloaded w = Ok tt w' ∧
    w' = set_windows
           (fmap (M:=list)
              (λ settings : gmap string value,
                 delete "vintage"
                   (<["inverse_caret_state" := VBool false]>
                      (<["command_mode" := VBool false]> settings)))
            <$> windows w) w ∧
    Forall (Forall (λ settings : gmap string value,
              settings !! "command_mode" = Some (VBool false) ∧
              settings !! "inverse_caret_state" = Some (VBool false) ∧
              settings !! "vintage" = None))
           (windows w') ∧
    plugin_unloaded w' = Ok tt w'.
Proof.
  intros Hf.
  assert (∀ w, faults w = [] →
    plugin_unloaded w
    = Ok tt (set_windows
               (fmap (M:=list)
                  (λ settings : gmap string value,
                     delete "vintage"
                       (<["inverse_caret_state" := VBool false]>
                          (<["command_mode" := VBool false]> settings)))
                <$> windows w) w)) as Hrun.
  { clear. intros w Hf. unfold plugin_unloaded. simpl.
    unfold mbind, M_bind. by rewrite cleanup_views_no_faults. }
  eexists. split; [by apply Hrun|]. split; [done|]. split.
  - simpl. apply Forall_fmap, Forall_forall. intros vs _.
    apply Forall_fmap, Forall_forall. intros s _. simpl.
    by simplify_map_eq.
  - rewrite Hrun by done. f_equal. simpl.
    rewrite set_windows_set_windows. f_equal.
    rewrite <-list_fmap_compose. apply list_fmap_ext. intros _ vs _. simpl.
    rewrite <-list_fmap_compose. apply list_fmap_ext. intros _ s _. simpl.
    apply cleaned_cleaned.
Qed.

(** X6 at an editor with one view in normal mode. *)
Lemma plugin_unloaded_resets_views_witness :
  ∃ w',
    plugin_unloaded (Sample.editor []) = Ok tt w' ∧
    windows w' =
      [[ {[ "command_mode" := VBool false;
            "inverse_caret_state" := VBool false;
            "tab_size" := VStr "4" ]} ]] ∧
    plugin_unloaded w' = Ok tt w'.
Proof.
  destruct (plugin_unloaded_resets_views (Sample.editor []))
    as (w' & Hrun & -> & _ & Hagain).
  - reflexivity.
  - eexists. split; [exact Hrun|]. split; [|exact Hagain].
    vm_compute. reflexivity.
Defined.

(** X7. Whatever call fails and wherever, [_cleanup_views] and
    [plugin_unloaded] touch nothing but the three settings: the windows and
    their views stay the same in number, every other setting of every view
    keeps its value, the preferences are untouched and no dialog is shown;
    the only output is the traceback of [plugin_unloaded]. *)
Theorem cleanup_views_touches_three_settings_only w :
  let same_but_mode (before after : gmap string value) :=
    ∀ key, key ≠ "command_mode" → key ≠ "inverse_caret_state" →
           key ≠ "vintage" → after !! key = before !! key in
  (preferences (final (_cleanup_views w)) = preferences w ∧
   output (final (_cleanup_views w)) = output w ∧
   Forall2 (Forall2 same_but_mode) (windows w)
     (windows (final (_cleanup_views w)))) ∧
  ∃ w',
    plugin_unloaded w = Ok tt w' ∧
    preferences w' = preferences w ∧
    dialogs w' = dialogs w ∧
    (output w' = output w ∨ ∃ e, output w' = output w ++ [Traceback e]) ∧
    Forall2 (Forall2 same_but_mode) (windows w) (windows w').
Proof.
  intros same_but_mode.
  destruct (cleanup_views_preserves w w) as (Hp & Ho & _ & Hws).
  { split_and!; [done..|]. apply same_but_mode_refl. }
  split; [done|].
  unfold plugin_unloaded. simpl. unfold mbind, M_bind.
  destruct (_cleanup_views w) as [[] w'|e w']; simpl in *.
  - exists w'. split_and!; try done; [|by left].
    unfold dialogs. by rewrite Ho.
  - exists (emit (Traceback e) w'). split_and!; try done.
    + rewrite dialogs_emit, List.app_nil_r. unfold dialogs. by rewrite Ho.
    + right. exists e. simpl. by rewrite Ho.
Qed.

End CleanupExtras.

Section CleanupFrameWitness.
Import Host Plugin.

(** X7 at an editor where the second [settings.set] raises: the view is
    left half reset, with its other settings as they were, and the
    traceback is printed. *)
Lemma cleanup_views_touches_three_settings_only_witness :
  let e := Error "RuntimeError" "settings.set" in
  let w := set_faults [None; None; None; None; Some e] (Sample.editor []) in
  ∃ w',
    plugin_unloaded w = Ok tt w' ∧
    preferences w' = preferences w ∧
    output w' = [Traceback e] ∧
    windows w' =
      [[ {[ "command_mode" := VBool false;
            "inverse_caret_state" := VBool true;
            "vintage" := VStr "state";
            "tab_size" := VStr "4" ]} ]].
Proof.
  intros e w.
  destruct (cleanup_views_touches_three_settings_only w)
    as (_ & w' & Hrun & Hprefs & _).
  exists w'. split; [exact Hrun|]. split; [exact Hprefs|].
  vm_compute in Hrun. injection Hrun as <-.
  split; vm_compute; reflexivity.
Defined.

End CleanupFrameWitness.

Section IgnoredPackagesExtras.
Import Host HostFacts Plugin IgnoredPackagesFacts FrameFacts.
Local Open Scope list_scope.

(** X8. Whatever call fails and wherever, [_update_ignored_packages] never
    takes a package off the list of ignored packages, changes no other
    preference and no view, and shows no dialog. *)
Theorem update_ignored_packages_never_drops w :
  let w' := final (_update_ignored_packages w) in
  (∀ x, x ∈ default [] (preferences w !! "ignored_packages") →
        x ∈ default [] (preferences w' !! "ignored_packages")) ∧
  (∀ key, key ≠ "ignored_packages" → preferences w' !! key = preferences w !! key) ∧
  windows w' = windows w ∧
  dialogs w' = dialogs w.
Proof.
  cbn zeta.
  unfold _update_ignored_packages, load_settings, preferences_get,
    preferences_set, save_settings, mbind, M_bind.
  destruct (call_cases (λ w, Ok tt w) w) as [(e & r & _ & ->)|[r ->]]; [done|].
  destruct (call_cases (λ w, Ok (default [] (preferences w !! "ignored_packages")) w)
              (set_faults r w)) as [(e & r' & _ & ->)|[r' ->]]; [done|].
  cbn [set_faults preferences].
  set (before := default [] (preferences w !! "ignored_packages")).
  set (missing := filter _ _).
  assert (∀ x, x ∈ before → x ∈ sorted (before ++ missing)) as Hkeeps.
  { intros x Hx. rewrite sorted_Permutation, elem_of_app. by left. }
  assert (∀ out evs,
    omap (λ ev, match ev with MessageDialog m => Some m | _ => None end) out
    = dialogs w →
    Forall (λ ev, ∀ m, ev ≠ MessageDialog m) evs →
    omap (λ ev, match ev with MessageDialog m => Some m | _ => None end)
      (out ++ evs) = dialogs w) as Hquiet.
  { intros out evs Hout Hevs. rewrite omap_app, Hout.
    rewrite <-(List.app_nil_r (dialogs w)) at 2. f_equal.
    induction Hevs as [|ev evs Hev _ IH]; [done|].
    destruct ev; simpl; try done. by edestruct Hev. }
  destruct (nonempty missing); [|by simpl; split_and!].
  unfold say. cbn beta iota.
  match goal with
  | |- context [match call ?f ?w0 with _ => _ end] =>
      destruct (call_cases f w0) as [(e & r3 & _ & ->)|[r3 ->]]
  end.
  { simpl. split_and!; try done. unfold dialogs at 1. simpl.
    apply Hquiet; [done|]. by repeat constructor. }
  match goal with
  | |- context [call ?f ?w0] =>
      destruct (call_cases f w0) as [(e & r4 & _ & ->)|[r4 ->]]
  end; simpl; (split_and!;
    [by rewrite lookup_insert_eq
    |by intros; rewrite lookup_insert_ne
    |done
    |unfold dialogs at 1; simpl;
     repeat (apply Hquiet; [|by repeat constructor]); done]).
Qed.

(** X8 at an editor where [sublime.save_settings] raises: the three
    packages are on the list all the same, and [Zed] is still there. *)
Lemma update_ignored_packages_never_drops_witness :
  let e := Error "OSError" "save_settings" in
  let w := set_faults [None; None; None; Some e] (Sample.editor ["Zed"]) in
  _update_ignored_packages w
    = Raise e (final (_update_ignored_packages w)) ∧
  preferences (final (_update_ignored_packages w)) !! "ignored_packages"
    = Some ["Six"; "Vintage"; "Vintageous"; "Zed"] ∧
  "Zed" ∈ default [] (preferences (final (_update_ignored_packages w))
                        !! "ignored_packages").
Proof.
  intros e w.
  split; [vm_compute; reflexivity|]. split; [vm_compute; reflexivity|].
  apply (proj1 (update_ignored_packages_never_drops w)).
  vm_compute. left.
Defined.

(** X9. With no failing call ahead, a second run of
    [_update_ignored_packages] changes nothing and saves nothing: after the
    first run the three packages are on the list. *)
Theorem update_ignored_packages_twice w :
  faults w = [] →
  ∃ w',
    _update_ignored_packages w = Ok tt w' ∧
    _update_ignored_packages w' = Ok tt w'.
Proof.
  intros Hf. rewrite (update_ignored_packages_no_faults w Hf). cbn zeta.
  set (before := default [] (preferences w !! "ignored_packages")).
  set (missing := filter _ _).
  eexists. split; [done|].
  destruct (nonempty missing) eqn:Hne.
  - rewrite update_ignored_packages_no_faults by done. cbn zeta. simpl.
    rewrite lookup_insert_eq. simpl.
    assert (filter (λ x, in_ x (sorted (before ++ missing)) = false)
              ["Six"; "Vintage"; "Vintageous"] = []) as ->; [|done].
    apply conflicts_nil.
    assert (∀ x, x ∈ ["Six"; "Vintage"; "Vintageous"] →
                 x ∈ sorted (before ++ missing)) as Hall.
    { intros x Hx. rewrite sorted_Permutation, elem_of_app.
      destruct (decide (x ∈ before)); [by left|right].
      by apply elem_of_conflicts. }
    split_and!; apply Hall; repeat constructor.
  - rewrite update_ignored_packages_no_faults by done. cbn zeta.
    fold before. fold missing. by rewrite Hne.
Qed.

(** X9 at an editor that ignores [Zed] only. *)
Lemma update_ignored_packages_twice_witness :
  ∃ w',
    _update_ignored_packages (Sample.editor ["Zed"]) = Ok tt w' ∧
    _update_ignored_packages w' = Ok tt w' ∧
    preferences w' !! "ignored_packages"
      = Some ["Six"; "Vintage"; "Vintageous"; "Zed"].
Proof.
  destruct (update_ignored_packages_twice (Sample.editor ["Zed"]))
    as (w' & Hrun & Hagain).
  - reflexivity.
  - exists w'. split; [exact Hrun|]. split; [exact Hagain|].
    vm_compute in Hrun. injection Hrun as <-. vm_compute. reflexivity.
Defined.

End IgnoredPackagesExtras.

Section ModuleBodyExtras.
Import Host HostFacts Plugin.

(** X10. The module body stops at the first import that raises: it
    records that exception in [_EXCEPTION], prints one traceback and tries
    none of the imports after it, and [init_state] is bound unless the
    first import is the one that failed. When the nine imports go through,
    [_EXCEPTION] is [None], [init_state] is bound and nothing is printed. *)
Theorem module_body_first_failure w :
  match list_find is_Some (take 9 (faults w)) with
  | Some (i, Some e) =>
      module_body w =
        Ok (Globals (Some e) (bool_decide (i ≠ 0)))
           (emit (Traceback e) (set_faults (drop (S i) (faults w)) w))
  | _ =>
      module_body w =
        Ok (Globals None true) (set_faults (drop 9 (faults w)) w)
  end.
Proof.
  destruct w as [prefs ws act pc out fs]. cbn [faults].
  do 9 (destruct fs as [|[e|] fs]; [reflexivity..|]).
  reflexivity.
Qed.

End ModuleBodyExtras.

Section ModuleBodyWitness.
Import Host Plugin.

(** X10 at an editor where the third import raises: the two imports before
    it went through, the six after it are not tried. *)
Lemma module_body_first_failure_witness :
  let e := ImportError "No module named lib.cmds" in
  let later := Error "RuntimeError" "not reached" in
  let w := set_faults [None; None; Some e; Some later] (Sample.editor []) in
  module_body w =
    Ok (Globals (Some e) true)
       (emit (Traceback e) (set_faults [Some later] w)).
Proof.
  intros e later w. exact (module_body_first_failure w).
Defined.

End ModuleBodyWitness.

(** ** [plugin_loaded] when no call fails *)

Module PluginLoadedFacts.
Import Host HostFacts Plugin PluginFacts FrameFacts.

(** What [pc_event] is once Package Control has been asked. *)
Local Abbreviation pc_event_of w :=
  (match package_control w with
   | Some (_, true) => Some "post_upgrade"
   | Some (true, false) => Some "install"
   | _ => None
   end).

Lemma try_one {L} (stmt : L → M L) except l w l' w' :
  stmt l w = Ok l' w' → try_ [stmt] except l w = Ok l' w'.
Proof. simpl. by intros ->. Qed.

Section Bootstrap.
Variable init_state :
  view_id → list (list (gmap string value)) →
  list (list (gmap string value)) * option exn.

(** The locals and the editor after the three [try] statements. *)
Lemma plugin_loaded_init_no_faults g w :
  faults w = [] →
  ∃ w0,
    _update_ignored_packages w = Ok tt w0 ∧
    dialogs w0 = dialogs w ∧
    plugin_loaded_init init_state g w =
      match active w with
      | None => Ok (Locals (pc_event_of w) None) w0
      | Some view =>
          if init_state_bound g then
            match init_state view (windows w) with
            | (ws, None) => Ok (Locals (pc_event_of w) None) (set_windows ws w0)
            | (ws, Some e) =>
                Ok (Locals (pc_event_of w) (Some e))
                   (emit (Traceback e) (set_windows ws w0))
            end
          else
            Ok (Locals (pc_event_of w) (Some (NameError "init_state")))
               (emit (Traceback (NameError "init_state")) w0)
      end.
Proof.
  intros Hf.
  pose proof (update_ignored_packages_no_faults w Hf) as Hupd. cbn zeta in Hupd.
  eexists. split; [exact Hupd|].
  split.
  { pose proof (quiet_update_ignored_packages w) as Hq.
    by rewrite Hupd in Hq. }
  set (w0 := if nonempty _ then _ else w) in *.
  assert (faults w0 = [] ∧ active w0 = active w ∧ windows w0 = windows w)
    as (Hf0 & Hact & Hws).
  { unfold w0. by destruct (nonempty _). }
  unfold plugin_loaded_init.
  assert (try_
    [ (λ l, mret (Locals None (_exception l)));
      (λ l, import_package_control;; mret l);
      (λ l, b ← events_install "NeoVintageous";
            mret (if b : bool then Locals (Some "install") (_exception l) else l));
      (λ l, b ← events_post_upgrade "NeoVintageous";
            mret (if b : bool then Locals (Some "post_upgrade") (_exception l) else l)) ]
    (λ e l, match e with
            | ImportError _ => mret l
            | _ => say (Traceback e);; mret l
            end)
    (Locals None None) w = Ok (Locals (pc_event_of w) None) w) as H1.
  { clear -Hf. destruct w as [prefs ws act pc out fs]. simpl in Hf. subst fs.
    by destruct pc as [[[] []]|]. }
  rewrite (bind_Ok _ _ _ _ _ H1).
  erewrite bind_Ok; [|apply try_one; unfold mbind, M_bind; by rewrite Hupd].
  rewrite <-Hact, <-Hws. clearbody w0. clear Hupd H1 Hact Hws.
  generalize (pc_event_of w). intros pc. clear Hf w.
  destruct w0 as [prefs ws act pcs out fs]. simpl in Hf0. subst fs.
  destruct g as [ex [|]]; (destruct act as [view|]; [|done]); [|done].
  simpl. unfold mbind, M_bind, call_init_state, call. simpl.
  by destruct (init_state view ws) as [ws' [e|]].
Qed.

End Bootstrap.

End PluginLoadedFacts.

Section PluginLoadedExtras.
Import Host HostFacts Plugin PluginFacts PluginLoadedFacts.
Local Open Scope list_scope.

(** X11. When nothing goes wrong (the module body went through, no call
    fails, [init_state] does not raise), [plugin_loaded] does two things
    and no more: the update of the ignored packages, then [init_state] on
    the active view, if there is one. It prints no traceback, shows no
    dialog and does not run [_cleanup_views], whether Package Control is
    there or not. *)
Theorem plugin_loaded_without_error init_state g w :
  _EXCEPTION g = None → init_state_bound g = true → faults w = [] →
  (∀ view, active w = Some view → (init_state view (windows w)).2 = None) →
  ∃ w0,
    _update_ignored_packages w = Ok tt w0 ∧
    plugin_loaded init_state g w =
      Ok tt (match active w with
             | Some view => set_windows (init_state view (windows w)).1 w0
             | None => w0
             end).
Proof.
  intros Hex Hbound Hf Hinit.
  destruct (plugin_loaded_init_no_faults init_state g w Hf) as (w0 & Hupd & _ & Hrun).
  exists w0. split; [done|]. unfold plugin_loaded.
  rewrite Hbound in Hrun.
  destruct (active w) as [view|].
  - specialize (Hinit view eq_refl).
    destruct (init_state view (windows w)) as [ws r]. simpl in Hinit. subst r.
    rewrite (bind_Ok _ _ _ _ _ Hrun).
    apply plugin_loaded_report_no_error. by rewrite Hex.
  - rewrite (bind_Ok _ _ _ _ _ Hrun).
    apply plugin_loaded_report_no_error. by rewrite Hex.
Qed.

(** X11 at an editor that already ignores the three packages: the editor
    is left as it was. *)
Lemma plugin_loaded_without_error_witness :
  let w := Sample.editor ["Six"; "Vintage"; "Vintageous"] in
  plugin_loaded Sample.init_state_ok Sample.imported w = Ok tt w.
Proof.
  intros w.
  destruct (plugin_loaded_without_error Sample.init_state_ok Sample.imported w)
    as (w0 & Hupd & Hrun).
  - reflexivity.
  - reflexivity.
  - reflexivity.
  - intros view _. reflexivity.
  - vm_compute in Hupd. injection Hupd as <-. exact Hrun.
Defined.

(** X12. When the module body has recorded an exception and no call fails,
    [plugin_loaded] shows one dialog, and its wording follows Package
    Control: it speaks of finishing the upgrade exactly when
    [events.post_upgrade] answers true, whatever [events.install] answers,
    and not when Package Control is missing; it speaks of modules that
    failed to load when the recorded exception is an [ImportError]. *)
Theorem plugin_loaded_dialog_wording init_state g w :
  _EXCEPTION g ≠ None → faults w = [] →
  ∃ w' import_error,
    plugin_loaded init_state g w = Ok tt w' ∧
    dialogs_since w w' =
      [message_for import_error (from_option snd false (package_control w))] ∧
    (isinstance_ImportError (_EXCEPTION g) = true → import_error = true).
Proof.
  intros Hex Hf.
  destruct (plugin_loaded_init_no_faults init_state g w Hf)
    as (w0 & _ & Hd0 & Hrun).
  assert (∃ l w1, plugin_loaded_init init_state g w = Ok l w1 ∧
            dialogs w1 = dialogs w ∧
            bool_decide (pc_event l = Some "post_upgrade")
            = from_option snd false (package_control w))
    as (l & w1 & Hinit & Hd1 & Hpc).
  { assert (bool_decide (match package_control w with
                         | Some (_, true) => Some "post_upgrade"
                         | Some (true, false) => Some "install"
                         | _ => None
                         end = Some "post_upgrade")
            = from_option snd false (package_control w)) as Hpc
      by by destruct (package_control w) as [[[] []]|].
    rewrite Hrun.
    destruct (active w) as [view|]; [destruct (init_state_bound g)|];
      [destruct (init_state view (windows w)) as [ws [e|]]|..];
      eexists _, _; (split; [done|]); (split; [|exact Hpc]);
      rewrite ?dialogs_emit, ?List.app_nil_r; done. }
  assert (truthy (_EXCEPTION g) || truthy (_exception l) = true) as Herr.
  { apply orb_true_iff. left. by apply truthy_spec. }
  destruct (plugin_loaded_report_error g l w1 Herr) as (w2 & Hd2 & Hreport).
  cbn zeta in Hreport. rewrite Hpc in Hreport.
  eexists _, _. unfold plugin_loaded. rewrite (bind_Ok _ _ _ _ _ Hinit).
  split; [exact Hreport|]. split.
  - unfold dialogs_since.
    by rewrite !dialogs_emit, Hd2, Hd1, List.app_nil_r, drop_app_length.
  - by intros ->.
Qed.

(** X12 at an editor where Package Control reports an upgrade and the
    module body failed on an import. *)
Lemma plugin_loaded_dialog_wording_witness :
  let w :=
    World ∅ [] None (Some (true, true)) [] [] in
  ∃ w',
    plugin_loaded Sample.init_state_ok Sample.import_failed w = Ok tt w' ∧
    dialogs_since w w' =
      ["Failed to load some modules trying to upgrade NeoVintageous. "
       +:+ "Please restart Sublime Text to finish the upgrade."].
Proof.
  intros w.
  destruct (plugin_loaded_dialog_wording Sample.init_state_ok
              Sample.import_failed w)
    as (w' & import_error & Hrun & Hdialogs & Himport).
  - discriminate.
  - reflexivity.
  - exists w'. split; [exact Hrun|].
    rewrite Hdialogs, (Himport eq_refl). reflexivity.
Defined.

End PluginLoadedExtras.
